(** * The lending engine of the book library

    A shallow embedding of [BooksService]
    (backend/src/books/books.service.ts): the two tables the service works
    on, [Book] and [BorrowRecord], the entity-manager calls it makes, the
    exceptions it throws, and its state-changing operations [create],
    [update], [borrow] and [return]; then the properties of the lending
    engine that the specification states. *)

From stdpp Require Import gmap strings list fin_maps numbers pretty.

Open Scope Z_scope.

(** * Part I: the program *)

(** ** Entities *)

(** [Book] (book.entity.ts).  The primary key [id] is the key under which
    the row is stored in its table; the relation [borrowRecords] is the set
    of rows of the other table that point to the book. *)
Module Book.
Record t := mk {
  title : string;
  author : string;
  isbn : string;
  publicationYear : Z;
  quantity : Z;
  availableQuantity : Z;
  coverImage : option string;
}.

Definition with_availableQuantity (v : Z) (b : t) : t :=
  mk (title b) (author b) (isbn b) (publicationYear b) (quantity b) v
     (coverImage b).
End Book.

(** [BorrowRecord] (borrow-record.entity.ts).  [user] and [book] hold the
    primary keys of the rows they refer to; dates are points in time. *)
Module BorrowRecord.
Record t := mk {
  borrowedAt : Z;
  returnedAt : option Z;
  user : Z;
  book : Z;
}.

Definition with_returnedAt (v : option Z) (r : t) : t :=
  mk (borrowedAt r) v (user r) (book r).
End BorrowRecord.

(** [CreateBookDto] (create-book.dto.ts), after the validation pipe has
    turned the numeric fields into numbers. *)
Module CreateBookDto.
Record t := mk {
  title : string;
  author : string;
  isbn : string;
  publicationYear : Z;
  quantity : Z;
}.

(** [@IsPositive] on [quantity]; [@IsInt] is the type [Z]. *)
Definition quantity_valid (dto : t) : Prop := 0 < quantity dto.
End CreateBookDto.

(** Modelled from the spec: the declaration of [UpdateBookDto]
    (dto/update-book.dto.ts) is not among the sources.  The service reads its
    field [quantity] and copies whatever fields are present onto the row; the
    spec's UpdateQuantity passes the new total.  It is taken as
    [CreateBookDto] with every field optional. *)
Module UpdateBookDto.
Record t := mk {
  title : option string;
  author : option string;
  isbn : option string;
  publicationYear : option Z;
  quantity : option Z;
}.

Definition only_quantity (newTotal : Z) : t :=
  mk None None None None (Some newTotal).
End UpdateBookDto.

(** [Object.assign(book, updateBookDto)]: every field the DTO defines
    overwrites the one of the row. *)
Definition assign (b : Book.t) (dto : UpdateBookDto.t) : Book.t :=
  Book.mk
    (default (Book.title b) (UpdateBookDto.title dto))
    (default (Book.author b) (UpdateBookDto.author dto))
    (default (Book.isbn b) (UpdateBookDto.isbn dto))
    (default (Book.publicationYear b) (UpdateBookDto.publicationYear dto))
    (default (Book.quantity b) (UpdateBookDto.quantity dto))
    (Book.availableQuantity b)
    (Book.coverImage b).

(** The uploaded cover image, as far as [create] looks at it: [extname] is
    [path.extname(file.originalname).toLowerCase()]. *)
Module MulterFile.
Record t := mk {
  extname : string;
  size : Z;
}.
End MulterFile.

(** ** Exceptions *)

Inductive HttpException :=
  | NotFoundException (message : string)
  | BadRequestException (message : string)
  | ConflictException (message : string)
  | InternalServerErrorException (message : string)
  | QueryFailedError (message : string).

Definition bookNotFound (id : Z) : HttpException :=
  NotFoundException ("Book with ID " +:+ pretty id +:+ " not found.").

Definition noCopies : HttpException :=
  BadRequestException "No copies of this book are available.".

Definition alreadyBorrowed : HttpException :=
  ConflictException "You have already borrowed this book.".

Definition noActiveRecord : HttpException :=
  NotFoundException "No active borrow record found for this user and book.".

Definition dataInconsistency : HttpException :=
  InternalServerErrorException
    "Data inconsistency detected: Cannot return a book when all copies are already available.".

Definition isbnExists : HttpException :=
  ConflictException "A book with this ISBN already exists.".

Definition quantityTooSmall : HttpException :=
  BadRequestException
    "New quantity cannot be less than the number of borrowed books.".

Definition invalidFileType : HttpException :=
  BadRequestException "Invalid file type. Only PNG, JPEG, or JPG are allowed.".

Definition fileTooLarge : HttpException :=
  BadRequestException "File is too large. Maximum size is 5MB.".

Definition couldNotSave : HttpException :=
  InternalServerErrorException "Could not save the cover image.".

(** [@Column({ unique: true }) isbn]: the store refuses an ISBN that another
    row carries. *)
Definition uniqueViolation : HttpException :=
  QueryFailedError "duplicate key value violates unique constraint".

(** [@Column() publicationYear: number], [quantity] and [availableQuantity]
    are columns of type integer: the store refuses a row that is inserted
    with a number outside of 32 bits. *)
Definition integerOutOfRange : HttpException :=
  QueryFailedError "value is out of range for type integer".

Definition inInteger (v : Z) : Prop := - 2 ^ 31 ≤ v < 2 ^ 31.

#[global] Instance inInteger_dec v : Decision (inInteger v).
Proof. unfold inInteger. apply _. Defined.

(** ** Numbers *)

(** The numeric fields of a DTO are JS numbers that hold an integer
    ([@IsInt]); such a number is taken as the integer it holds.
    [roundToNumber n] is the number nearest to a positive integer [n]: the
    integer of 53 significant bits next to it, the even one on a tie. *)
Definition roundToNumber (n : Z) : Z :=
  let e := Z.log2 n - 52 in
  if bool_decide (e ≤ 0) then n
  else
    let q := n / 2 ^ e in
    let r := n mod 2 ^ e in
    let half := 2 ^ (e - 1) in
    if bool_decide (r < half) then q * 2 ^ e
    else if bool_decide (half < r) then (q + 1) * 2 ^ e
    else if Z.even q then q * 2 ^ e
    else (q + 1) * 2 ^ e.

Definition decimalDigits (n : Z) : Z := Z.of_nat (String.length (pretty n)).

(** [String(n)] for a number [n] from 10^21 on is in exponent notation,
    [d.ddde+x], with the least number of digits that read back as [n].
    [leadingDigit k p n] looks for them, with [k] digits, then [k + 1], and
    so on up to 17, and gives [d]; [p] is the number of digits of [n]. *)
Fixpoint leadingDigit (more : nat) (k p n : Z) : Z :=
  match more with
  | O => n / 10 ^ (p - 1)
  | S more =>
      let t := 10 ^ (p - k) in
      let s := n / t in
      if bool_decide (roundToNumber (s * t) = n) then s / 10 ^ (k - 1)
      else if bool_decide (roundToNumber ((s + 1) * t) = n) then
        (if bool_decide (s + 1 = 10 ^ k) then 1 else (s + 1) / 10 ^ (k - 1))
      else leadingDigit more (k + 1) p n
  end.

(** [parseInt(n as any, 10)] for a number [n] that holds an integer: [n] is
    turned into a string, and the digits the string starts with are read.
    Below 10^21 the string is a decimal numeral that reads back as [n]; from
    10^21 on only the digit before the [.] or the [e] is read, of the
    number next to [n] when [n] has more significant bits than a number
    holds. *)
Definition parseInt10 (n : Z) : Z :=
  if bool_decide (Z.abs n < 10 ^ 21) then n
  else
    let m := roundToNumber (Z.abs n) in
    Z.sgn n * leadingDigit 17 1 (decimalDigits m) m.

(** ** The store and the unit of work *)

Record Db := {
  books : gmap Z Book.t;
  borrowRecords : gmap Z BorrowRecord.t;
}.

(** A computation against the store: it ends in a value or in a thrown
    exception, and leaves a store behind in both cases. *)
Definition Tx (A : Type) : Type := Db → (HttpException + A) * Db.

#[global] Instance Tx_ret : MRet Tx := λ A a db, (inr a, db).

#[global] Instance Tx_bind : MBind Tx := λ A B k m db,
  match m db with
  | (inl e, db') => (inl e, db')
  | (inr a, db') => k a db'
  end.

Definition throw {A} (e : HttpException) : Tx A := λ db, (inl e, db).

(** [entityManager.transaction(cb)]: when [cb] throws, the transaction is
    rolled back and the exception is passed on; otherwise it is committed. *)
Definition transaction {A} (cb : Tx A) : Tx A := λ db,
  match cb db with
  | (inl e, _) => (inl e, db)
  | (inr a, db') => (inr a, db')
  end.

(** The identifier a [@PrimaryGeneratedColumn] hands out on insert: one that
    no row of the table has. *)
Definition nextId {A} (m : gmap Z A) : Z :=
  1 + foldr Z.max 0 (map_to_list m).*1.

(** [findOne] with a [where] clause: one of the rows that satisfy it. *)
Definition findWhere {A} (P : Z * A → Prop) `{!∀ x, Decision (P x)}
    (m : gmap Z A) : option (Z * A) :=
  head (map_to_list (filter P m)).

(** [where: { book: { id: bookId }, user: { id: userId }, returnedAt:
    IsNull() }] *)
Definition activeRecord (bookId userId : Z) (kr : Z * BorrowRecord.t) : Prop :=
  BorrowRecord.book kr.2 = bookId ∧ BorrowRecord.user kr.2 = userId
  ∧ BorrowRecord.returnedAt kr.2 = None.

#[global] Instance activeRecord_dec bookId userId kr :
  Decision (activeRecord bookId userId kr).
Proof. unfold activeRecord. apply _. Defined.

(** [findOneBy({ isbn })] *)
Definition hasIsbn (i : string) (kb : Z * Book.t) : Prop := Book.isbn kb.2 = i.

#[global] Instance hasIsbn_dec i kb : Decision (hasIsbn i kb).
Proof. unfold hasIsbn. apply _. Defined.

(** Another row than [id] carries the ISBN [i]. *)
Definition isbnOfOther (id : Z) (i : string) (kb : Z * Book.t) : Prop :=
  kb.1 ≠ id ∧ Book.isbn kb.2 = i.

#[global] Instance isbnOfOther_dec id i kb : Decision (isbnOfOther id i kb).
Proof. unfold isbnOfOther. apply _. Defined.

Definition findOneBook (id : Z) : Tx (option Book.t) := λ db,
  (inr (books db !! id), db).

Definition findOneBookByIsbn (i : string) : Tx (option (Z * Book.t)) := λ db,
  (inr (findWhere (hasIsbn i) (books db)), db).

Definition findOneBorrowRecord (bookId userId : Z)
    : Tx (option (Z * BorrowRecord.t)) := λ db,
  (inr (findWhere (activeRecord bookId userId) (borrowRecords db)), db).

(** [save] of a Title: the row is written under its id.  The unique index on
    [isbn] is consulted when the ISBN of the row is new to it. *)
Definition saveBook (id : Z) (b : Book.t) : Tx (Z * Book.t) := λ db,
  let changed :=
    bool_decide (Book.isbn <$> books db !! id ≠ Some (Book.isbn b)) in
  let taken :=
    bool_decide (is_Some (findWhere (isbnOfOther id (Book.isbn b)) (books db))) in
  if changed && taken then (inl uniqueViolation, db)
  else (inr (id, b), {| books := <[id := b]> (books db);
                        borrowRecords := borrowRecords db |}).

(** [save] of a Title made with [create]: it is inserted under a new id,
    when its numbers fit the integer columns.  (The rows that [saveBook]
    writes over are taken to stay within the columns.) *)
Definition fitsColumns (b : Book.t) : Prop :=
  inInteger (Book.publicationYear b) ∧ inInteger (Book.quantity b)
  ∧ inInteger (Book.availableQuantity b).

#[global] Instance fitsColumns_dec b : Decision (fitsColumns b).
Proof. unfold fitsColumns. apply _. Defined.

Definition insertBook (b : Book.t) : Tx (Z * Book.t) := λ db,
  if bool_decide (fitsColumns b) then saveBook (nextId (books db)) b db
  else (inl integerOutOfRange, db).

Definition saveBorrowRecord (id : Z) (r : BorrowRecord.t)
    : Tx (Z * BorrowRecord.t) := λ db,
  (inr (id, r), {| books := books db;
                   borrowRecords := <[id := r]> (borrowRecords db) |}).

(** [save] of a Loan made with [create(BorrowRecord, { book, user })]: it
    is inserted under a new id.  Both dates of the entity are declared with
    [@CreateDateColumn] ([returnedAt] with [nullable: true]), and [borrow]
    sets neither: the store fills both with the time of the insert, [now],
    and [save] hands the row back as it is stored. *)
Definition insertBorrowRecord (now bookId userId : Z)
    : Tx (Z * BorrowRecord.t) := λ db,
  saveBorrowRecord (nextId (borrowRecords db))
    (BorrowRecord.mk now (Some now) userId bookId) db.

(** ** The service *)

Definition allowedExtensions : list string := [".png"; ".jpeg"; ".jpg"]%string.

Definition maxFileSize : Z := 5 * 1024 * 1024.

(** The cover image part of [create].  [uuid] is the value of [uuidv4()] and
    [written] tells whether [fs.writeFile] went through. *)
Definition storeCover (file : option MulterFile.t) (uuid : string)
    (written : bool) : Tx (option string) :=
  match file with
  | None => mret None
  | Some f =>
      if negb (bool_decide (MulterFile.extname f ∈ allowedExtensions)) then
        throw invalidFileType
      else if bool_decide (maxFileSize < MulterFile.size f) then
        throw fileTooLarge
      else if written then
        mret (Some ("/storage/covers/" +:+ uuid +:+ MulterFile.extname f))
      else throw couldNotSave
  end.

Definition create (dto : CreateBookDto.t) (file : option MulterFile.t)
    (uuid : string) (written : bool) : Tx (Z * Book.t) :=
  existingBook ← findOneBookByIsbn (CreateBookDto.isbn dto);
  match existingBook with
  | Some _ => throw isbnExists
  | None =>
      coverImagePath ← storeCover file uuid written;
      let publicationYear := parseInt10 (CreateBookDto.publicationYear dto) in
      let quantity := parseInt10 (CreateBookDto.quantity dto) in
      insertBook
        (Book.mk (CreateBookDto.title dto) (CreateBookDto.author dto)
           (CreateBookDto.isbn dto) publicationYear quantity quantity
           coverImagePath)
  end.

Definition findOne (id : Z) : Tx Book.t :=
  book ← findOneBook id;
  match book with
  | None => throw (bookNotFound id)
  | Some book => mret book
  end.

Definition update (id : Z) (dto : UpdateBookDto.t) : Tx (Z * Book.t) :=
  book ← findOne id;
  book ← match UpdateBookDto.quantity dto with
         | Some newQuantity =>
             let borrowedCount :=
               Book.quantity book - Book.availableQuantity book in
             if bool_decide (newQuantity < borrowedCount) then
               throw quantityTooSmall
             else
               mret (Book.with_availableQuantity
                       (newQuantity - borrowedCount) book)
         | None => mret book
         end;
  saveBook id (assign book dto).

Definition borrow (now bookId userId : Z) : Tx (Z * BorrowRecord.t) :=
  transaction (
    book ← findOneBook bookId;
    match book with
    | None => throw (bookNotFound bookId)
    | Some book =>
        if bool_decide (Book.availableQuantity book ≤ 0) then throw noCopies
        else
          existingRecord ← findOneBorrowRecord bookId userId;
          match existingRecord with
          | Some _ => throw alreadyBorrowed
          | None =>
              _ ← saveBook bookId
                    (Book.with_availableQuantity
                       (Book.availableQuantity book - 1) book);
              insertBorrowRecord now bookId userId
          end
    end).

(** [return], named [return_] here. *)
Definition return_ (now bookId userId : Z) : Tx (Z * BorrowRecord.t) :=
  transaction (
    book ← findOneBook bookId;
    match book with
    | None => throw (bookNotFound bookId)
    | Some book =>
        borrowRecord ← findOneBorrowRecord bookId userId;
        match borrowRecord with
        | None => throw noActiveRecord
        | Some (recordId, borrowRecord) =>
            if bool_decide (Book.quantity book ≤ Book.availableQuantity book)
            then throw dataInconsistency
            else
              _ ← saveBook bookId
                    (Book.with_availableQuantity
                       (Book.availableQuantity book + 1) book);
              saveBorrowRecord recordId
                (BorrowRecord.with_returnedAt (Some now) borrowRecord)
        end
    end).

(** The spec's UpdateQuantity: [update] with a DTO that carries the new
    total and nothing else. *)
Definition updateQuantity (id newTotal : Z) : Tx (Z * Book.t) :=
  update id (UpdateBookDto.only_quantity newTotal).

(** ** The vocabulary of the specification *)

(** An open Loan of [userId] on [bookId] is on record. *)
Definition hasActiveRecord (bookId userId : Z) (db : Db) : Prop :=
  ∃ k r, borrowRecords db !! k = Some r ∧ activeRecord bookId userId (k, r).

(** The outcome of an operation is a thrown exception. *)
Definition failed {A} (r : (HttpException + A) * Db) : Prop :=
  ∃ e, r.1 = inl e.

(** The store a committed [borrow] leaves. *)
Definition borrowed (now bookId userId : Z) (book : Book.t) (db : Db) : Db :=
  {| books := <[bookId := Book.with_availableQuantity
                            (Book.availableQuantity book - 1) book]> (books db);
     borrowRecords := <[nextId (borrowRecords db) :=
                          BorrowRecord.mk now (Some now) userId bookId]>
                        (borrowRecords db) |}.

(** The store a committed [return] leaves. *)
Definition returned (now bookId recordId : Z) (book : Book.t)
    (r : BorrowRecord.t) (db : Db) : Db :=
  {| books := <[bookId := Book.with_availableQuantity
                            (Book.availableQuantity book + 1) book]> (books db);
     borrowRecords := <[recordId := BorrowRecord.with_returnedAt (Some now) r]>
                        (borrowRecords db) |}.


(** An open Loan on [bookId]: [returnedAt] is null. *)
Definition openLoan (bookId : Z) (kr : Z * BorrowRecord.t) : Prop :=
  BorrowRecord.book kr.2 = bookId ∧ BorrowRecord.returnedAt kr.2 = None.

#[global] Instance openLoan_dec bookId kr : Decision (openLoan bookId kr).
Proof. unfold openLoan. apply _. Defined.

(** The number of open Loans that refer to a Title. *)
Definition openLoans (bookId : Z) (db : Db) : nat :=
  size (filter (openLoan bookId) (borrowRecords db)).

Definition coreInvariant (db : Db) : Prop :=
  ∀ id book, books db !! id = Some book →
    0 ≤ Book.availableQuantity book ≤ Book.quantity book
    ∧ Book.quantity book - Book.availableQuantity book
      = Z.of_nat (openLoans id db).

(** The first half of the core invariant: no Title shows fewer than 0 or
    more than all of its copies. *)
Definition countsInRange (db : Db) : Prop :=
  ∀ id book, books db !! id = Some book →
    0 ≤ Book.availableQuantity book ≤ Book.quantity book.

(** [@ManyToOne(() => Book)]: the foreign key of a Loan points to a row of
    the table of Titles. *)
Definition referencesExist (db : Db) : Prop :=
  ∀ k r, borrowRecords db !! k = Some r →
    is_Some (books db !! BorrowRecord.book r).

Definition emptyDb : Db := {| books := ∅; borrowRecords := ∅ |}.

(** ** Two calls in flight *)

(** The arguments of a [borrow] call; [now] is the time its Loan is
    inserted at. *)
Module BorrowCall.
Record t := mk {
  now : Z;
  bookId : Z;
  userId : Z;
}.
End BorrowCall.

(** Where a [borrow] call stands: at one of its [await]s, or settled with the
    Loan it resolved to or the exception it was rejected with. *)
Inductive Pc :=
  | AtFindBook
  | AtFindRecord (book : Book.t)
  | AtSaveBook (book : Book.t)
  | AtSaveRecord (old : Book.t)
  | AtCommit (saved : Z * BorrowRecord.t)
  | Settled (result : HttpException + Z * BorrowRecord.t).

(** Modelled from the spec: the row lock of [lock: { mode:
    'pessimistic_write' }].  It is exclusive and per Title, held from the
    read of the row to the commit or the rollback of the transaction; a
    transaction that asks for a row that is locked waits.  [locks] maps the
    id of a locked Title to the call that holds the lock; the two calls are
    named [true] and [false]. *)
Record Config := {
  store : Db;
  locks : gmap Z bool;
  pcFirst : Pc;
  pcSecond : Pc;
}.

Definition pcOf (t : bool) (cfg : Config) : Pc :=
  if t then pcFirst cfg else pcSecond cfg.

(** Call [t] goes on to [p], with the store and the locks it leaves. *)
Definition resume (t : bool) (p : Pc) (db : Db) (l : gmap Z bool)
    (cfg : Config) : Config :=
  if t then {| store := db; locks := l; pcFirst := p; pcSecond := pcSecond cfg |}
  else {| store := db; locks := l; pcFirst := pcFirst cfg; pcSecond := p |}.

(** One turn of call [t]: the statement it is waiting at runs, followed by
    the code of [borrow] up to the next [await].  A write is applied to the
    store when its statement runs; a throw rolls the transaction back, which
    undoes the write made so far and gives the lock back. *)
Definition stepBorrow (c : BorrowCall.t) (t : bool) (cfg : Config) : Config :=
  let db := store cfg in
  let id := BorrowCall.bookId c in
  match pcOf t cfg with
  | AtFindBook =>
      match books db !! id with
      | None => resume t (Settled (inl (bookNotFound id))) db (locks cfg) cfg
      | Some book =>
          match locks cfg !! id with
          | Some _ => cfg
          | None =>
              if bool_decide (Book.availableQuantity book ≤ 0) then
                resume t (Settled (inl noCopies)) db (locks cfg) cfg
              else resume t (AtFindRecord book) db (<[id := t]> (locks cfg)) cfg
          end
      end
  | AtFindRecord book =>
      match findWhere (activeRecord id (BorrowCall.userId c))
              (borrowRecords db) with
      | Some _ =>
          resume t (Settled (inl alreadyBorrowed)) db (delete id (locks cfg)) cfg
      | None => resume t (AtSaveBook book) db (locks cfg) cfg
      end
  | AtSaveBook book =>
      match saveBook id (Book.with_availableQuantity
                           (Book.availableQuantity book - 1) book) db with
      | (inl e, _) => resume t (Settled (inl e)) db (delete id (locks cfg)) cfg
      | (inr _, db') => resume t (AtSaveRecord book) db' (locks cfg) cfg
      end
  | AtSaveRecord old =>
      match insertBorrowRecord (BorrowCall.now c) id (BorrowCall.userId c) db with
      | (inl e, _) =>
          resume t (Settled (inl e))
            {| books := <[id := old]> (books db);
               borrowRecords := borrowRecords db |}
            (delete id (locks cfg)) cfg
      | (inr saved, db') => resume t (AtCommit saved) db' (locks cfg) cfg
      end
  | AtCommit saved =>
      resume t (Settled (inr saved)) db (delete id (locks cfg)) cfg
  | Settled _ => cfg
  end.

(** The two calls take turns in the order of [schedule]: [true] is a turn
    of [c1], [false] a turn of [c2]. *)
Definition runBorrows (c1 c2 : BorrowCall.t) (schedule : list bool)
    (cfg : Config) : Config :=
  foldl (λ (cfg : Config) (t : bool), stepBorrow (if t then c1 else c2) t cfg)
    cfg schedule.

Definition initial (db : Db) : Config :=
  {| store := db; locks := ∅; pcFirst := AtFindBook; pcSecond := AtFindBook |}.

Definition settled (cfg : Config) : Prop :=
  ∃ r1 r2, pcFirst cfg = Settled r1 ∧ pcSecond cfg = Settled r2.

(** The configuration in which the first call has run as one [borrow] and the
    second one after it, and the one for the other order. *)
Definition firstThenSecond (c1 c2 : BorrowCall.t) (db : Db) : Config :=
  let r1 := borrow (BorrowCall.now c1) (BorrowCall.bookId c1)
              (BorrowCall.userId c1) db in
  let r2 := borrow (BorrowCall.now c2) (BorrowCall.bookId c2)
              (BorrowCall.userId c2) r1.2 in
  {| store := r2.2; locks := ∅; pcFirst := Settled r1.1; pcSecond := Settled r2.1 |}.

Definition secondThenFirst (c1 c2 : BorrowCall.t) (db : Db) : Config :=
  let r2 := borrow (BorrowCall.now c2) (BorrowCall.bookId c2)
              (BorrowCall.userId c2) db in
  let r1 := borrow (BorrowCall.now c1) (BorrowCall.bookId c1)
              (BorrowCall.userId c1) r2.2 in
  {| store := r1.2; locks := ∅; pcFirst := Settled r1.1; pcSecond := Settled r2.1 |}.

(** The configuration seen from call [t]: [mine] is where [t] stands,
    [other] where the other call stands. *)
Definition conf (t : bool) (s : Db) (l : gmap Z bool) (mine other : Pc)
    : Config :=
  if t then {| store := s; locks := l; pcFirst := mine; pcSecond := other |}
  else {| store := s; locks := l; pcFirst := other; pcSecond := mine |}.

Definition decremented (id : Z) (book : Book.t) (db : Db) : Db :=
  {| books := <[id := Book.with_availableQuantity
                        (Book.availableQuantity book - 1) book]> (books db);
     borrowRecords := borrowRecords db |}.

Definition won (c : BorrowCall.t) (book : Book.t) (db : Db) : Db :=
  borrowed (BorrowCall.now c) (BorrowCall.bookId c) (BorrowCall.userId c) book db.

Definition loanOf (c : BorrowCall.t) (db : Db) : Z * BorrowRecord.t :=
  (nextId (borrowRecords db),
   BorrowRecord.mk (BorrowCall.now c) (Some (BorrowCall.now c))
     (BorrowCall.userId c) (BorrowCall.bookId c)).

(** The configurations two calls for the last copy of [book] go through:
    until one of them has the lock both are at their first statement; the
    one that has the lock, [t], runs to its commit while the other one waits;
    then the other one reads the row and finds no copy. *)
Inductive race (db : Db) (id : Z) (book : Book.t) (c1 c2 : BorrowCall.t)
    : Config → Prop :=
  | race_start : race db id book c1 c2 (initial db)
  | race_locked t :
      race db id book c1 c2
        (conf t db {[ id := t ]} (AtFindRecord book) AtFindBook)
  | race_checked t :
      race db id book c1 c2
        (conf t db {[ id := t ]} (AtSaveBook book) AtFindBook)
  | race_saved t :
      race db id book c1 c2
        (conf t (decremented id book db) {[ id := t ]} (AtSaveRecord book)
           AtFindBook)
  | race_inserted (t : bool) :
      let c := if t then c1 else c2 in
      race db id book c1 c2
        (conf t (won c book db) {[ id := t ]} (AtCommit (loanOf c db))
           AtFindBook)
  | race_committed (t : bool) :
      let c := if t then c1 else c2 in
      race db id book c1 c2
        (conf t (won c book db) ∅ (Settled (inr (loanOf c db))) AtFindBook)
  | race_over (t : bool) :
      let c := if t then c1 else c2 in
      race db id book c1 c2
        (conf t (won c book db) ∅ (Settled (inr (loanOf c db)))
           (Settled (inl noCopies))).

(** The turns the two calls still have to take. *)
Definition turnsLeft (p : Pc) : nat :=
  match p with
  | AtFindBook => 5
  | AtFindRecord _ => 4
  | AtSaveBook _ => 3
  | AtSaveRecord _ => 2
  | AtCommit _ => 1
  | Settled _ => 0
  end.

Definition rank (cfg : Config) : nat :=
  (turnsLeft (pcFirst cfg) + turnsLeft (pcSecond cfg))%nat.

(** ** Sample stores *)

Definition sampleBook (q a : Z) : Book.t :=
  Book.mk "Test Book" "Test Author" "1234567890" 2024 q a None.

(** One Title, with [q] copies of which [a] are available, and no Loan. *)
Definition sampleDb (q a : Z) : Db :=
  {| books := {[ 1 := sampleBook q a ]}; borrowRecords := ∅ |}.

(** Two Titles and three Loans: user 7 holds book 1, user 8 has brought
    book 1 back, user 7 holds book 2. *)
Definition libraryDb : Db :=
  {| books := {[ 1 := sampleBook 5 4; 2 := sampleBook 1 0 ]};
     borrowRecords := {[ 1 := BorrowRecord.mk 10 None 7 1;
                         2 := BorrowRecord.mk 11 (Some 12) 8 1;
                         3 := BorrowRecord.mk 13 None 7 2 ]} |}.

(** Book 1 shows all of its copies although user 7 holds one. *)
Definition corruptDb : Db :=
  {| books := {[ 1 := sampleBook 5 5 ]};
     borrowRecords := {[ 1 := BorrowRecord.mk 10 None 7 1 ]} |}.

Definition tolkien : CreateBookDto.t :=
  CreateBookDto.mk "The Lord of the Rings" "J.R.R. Tolkien" "978-0-618-64015-7"
    1954 2.

(** The same, with one copy more than an integer column holds. *)
Definition tolkienTooMany : CreateBookDto.t :=
  CreateBookDto.mk "The Lord of the Rings" "J.R.R. Tolkien" "978-0-618-64015-7"
    1954 (2 ^ 31).

(** The store [create] leaves when it is given [tolkien], without a cover,
    on the empty store. *)
Definition createdDb : Db :=
  {| books := {[ 1 := Book.mk "The Lord of the Rings" "J.R.R. Tolkien"
                        "978-0-618-64015-7" 1954 2 2 None ]};
     borrowRecords := ∅ |}.

(** One Title with 3 copies of which 2 are available: user 7 has brought
    a copy back, user 8 holds one. *)
Definition tolkienDb : Db :=
  {| books := {[ 1 := Book.mk "The Lord of the Rings" "J.R.R. Tolkien"
                        "978-0-618-64015-7" 1954 3 2 None ]};
     borrowRecords := {[ 1 := BorrowRecord.mk 10 (Some 30) 7 1;
                         2 := BorrowRecord.mk 20 None 8 1 ]} |}.

(** Two Titles, each with its own ISBN, and no Loan. *)
Definition catalogueDb : Db :=
  {| books := {[ 1 := Book.mk "The Lord of the Rings" "J.R.R. Tolkien"
                        "978-0-618-64015-7" 1954 3 3 None;
                 2 := Book.mk "Dune" "Frank Herbert" "978-0441013593"
                        1965 6 6 None ]};
     borrowRecords := ∅ |}.

(** One turn of a call in a configuration that is written out. *)
Ltac turn :=
  match goal with
  | |- context [stepBorrow ?c ?t (Build_Config ?s ?l ?p ?q)] =>
      let x := eval cbv beta iota zeta
                 delta [stepBorrow pcOf resume store locks pcFirst pcSecond]
               in (stepBorrow c t (Build_Config s l p q)) in
      change (stepBorrow c t (Build_Config s l p q)) with x
  end.

(** ** The committed operations of the books service *)

Inductive Operation :=
  | Create (dto : CreateBookDto.t) (file : option MulterFile.t) (uuid : string)
      (written : bool)
  | Update (id : Z) (dto : UpdateBookDto.t)
  | Borrow (now bookId userId : Z)
  | Return (now bookId userId : Z).

(** [op] runs on [db] without throwing and leaves [db']. *)
Definition commits (op : Operation) (db db' : Db) : Prop :=
  match op with
  | Create dto file uuid written =>
      ∃ r, create dto file uuid written db = (inr r, db')
  | Update id dto => ∃ r, update id dto db = (inr r, db')
  | Borrow now bookId userId => ∃ r, borrow now bookId userId db = (inr r, db')
  | Return now bookId userId => ∃ r, return_ now bookId userId db = (inr r, db')
  end.

(** No borrower holds two open Loans on one Title. *)
Definition oneOpenLoanPerPair (db : Db) : Prop :=
  ∀ bookId userId k1 r1 k2 r2,
    borrowRecords db !! k1 = Some r1 → borrowRecords db !! k2 = Some r2 →
    activeRecord bookId userId (k1, r1) → activeRecord bookId userId (k2, r2) →
    k1 = k2.

(** No two Titles carry the same ISBN. *)
Definition isbnUnique (db : Db) : Prop :=
  ∀ k1 b1 k2 b2,
    books db !! k1 = Some b1 → books db !! k2 = Some b2 →
    Book.isbn b1 = Book.isbn b2 → k1 = k2.

(** ** Listing the catalogue: [findAll] *)

(** [SearchBookDto] (dto/search-book.dto.ts), with the two fields of
    [PaginationDto] that [findAll] reads; the declaration of [PaginationDto]
    is not among the sources. *)
Module SearchBookDto.
Record t := mk {
  title : option string;
  author : option string;
  page : option Z;
  limit : option Z;
}.
End SearchBookDto.

Module PaginatedBooksResult.
Record t := mk {
  data : list (Z * Book.t);
  total : Z;
  page : Z;
  limit : Z;
  totalPages : Z;
}.
End PaginatedBooksResult.

(** [if (title)]: the filter is there and is not the empty string. *)
Definition truthy (s : option string) : option string :=
  match s with
  | Some EmptyString => None
  | other => other
  end.

(** [andWhere('book.title ILIKE :title', { title: `%${title}%` })]; [ilike
    pattern text] is the operator of the database. *)
Definition andWhere (ilike : string → string → bool) (wanted : option string)
    (text : string) : bool :=
  match truthy wanted with
  | Some w => ilike ("%" +:+ w +:+ "%") text
  | None => true
  end.

Definition selected (ilike : string → string → bool) (query : SearchBookDto.t)
    (kb : Z * Book.t) : bool :=
  andWhere ilike (SearchBookDto.title query) (Book.title kb.2)
  && andWhere ilike (SearchBookDto.author query) (Book.author kb.2).

(** [Math.ceil(a / b)] for a count [a] and [b > 0]. *)
Definition ceilDiv (a b : Z) : Z := - ((- a) / b).

(** [findAll]: the rows that pass the filters, in the order the table gives
    them; [skip((page - 1) * limit).take(limit)] cuts the page out and
    [getManyAndCount] counts all of them. *)
Definition findAll (ilike : string → string → bool) (query : SearchBookDto.t)
    (db : Db) : PaginatedBooksResult.t :=
  let page := default 1 (SearchBookDto.page query) in
  let limit := default 10 (SearchBookDto.limit query) in
  let rows := filter (λ kb, selected ilike query kb = true)
                (map_to_list (books db)) in
  PaginatedBooksResult.mk
    (take (Z.to_nat limit) (drop (Z.to_nat ((page - 1) * limit)) rows))
    (Z.of_nat (length rows)) page limit
    (ceilDiv (Z.of_nat (length rows)) limit).

(** ** Users (users.service.ts, users.controller.ts) *)

Inductive UserRole := MEMBER | LIBRARIAN | ADMIN.

(** [User] (user.entity.ts); the primary key is the key of the table. *)
Module User.
Record t := mk {
  username : string;
  password : string;
  role : UserRole;
}.
End User.

Module CreateUserDto.
Record t := mk {
  username : string;
  password : string;
  role : option UserRole;
}.

Definition with_role (v : option UserRole) (dto : t) : t :=
  mk (username dto) (password dto) v.
End CreateUserDto.

Module UserCreationResponse.
Record t := mk {
  id : Z;
  username : string;
  role : UserRole;
}.
End UserCreationResponse.

(** [findOneBy({ username })] *)
Definition hasUsername (n : string) (ku : Z * User.t) : Prop :=
  User.username ku.2 = n.

#[global] Instance hasUsername_dec n ku : Decision (hasUsername n ku).
Proof. unfold hasUsername. apply _. Defined.

Definition usernameExists : HttpException :=
  ConflictException "Username already exists".

Module UsersService.
Definition findOne (username : string) (users : gmap Z User.t)
    : option (Z * User.t) :=
  findWhere (hasUsername username) users.

(** [hashed] is what [bcrypt.hash(password, 10)] gives in the
    [@BeforeInsert] hook of the row that is saved. *)
Definition create (hashed : string) (createUserDto : CreateUserDto.t)
    (users : gmap Z User.t)
    : (HttpException + UserCreationResponse.t) * gmap Z User.t :=
  match findWhere (hasUsername (CreateUserDto.username createUserDto)) users with
  | Some _ => (inl usernameExists, users)
  | None =>
      let role := default MEMBER (CreateUserDto.role createUserDto) in
      let id := nextId users in
      let savedUser :=
        User.mk (CreateUserDto.username createUserDto) hashed role in
      (inr (UserCreationResponse.mk id (User.username savedUser)
              (User.role savedUser)),
       <[id := savedUser]> users)
  end.
End UsersService.

Module UsersController.
Definition register (hashed : string) (createUserDto : CreateUserDto.t)
    (users : gmap Z User.t)
    : (HttpException + UserCreationResponse.t) * gmap Z User.t :=
  UsersService.create hashed
    (CreateUserDto.with_role (Some MEMBER) createUserDto) users.

Definition create (hashed : string) (createUserDto : CreateUserDto.t)
    (users : gmap Z User.t)
    : (HttpException + UserCreationResponse.t) * gmap Z User.t :=
  UsersService.create hashed createUserDto users.
End UsersController.

(** No two users carry the same name. *)
Definition usernameUnique (users : gmap Z User.t) : Prop :=
  ∀ k1 u1 k2 u2,
    users !! k1 = Some u1 → users !! k2 = Some u2 →
    User.username u1 = User.username u2 → k1 = k2.

(** ** Seeding (core/database/seed.ts) *)

Definition usersToSeed : list User.t :=
  [ User.mk "admin" "password123" ADMIN;
    User.mk "librarian" "password123" LIBRARIAN;
    User.mk "member" "password123" MEMBER ].

(** One round of the loop over [usersToSeed]; [hashed name] is what the
    [@BeforeInsert] hook makes of the password of the user [name]. *)
Definition seedUser (hashed : string → string) (userData : User.t)
    (users : gmap Z User.t) : gmap Z User.t :=
  match findWhere (hasUsername (User.username userData)) users with
  | Some _ => users
  | None =>
      <[nextId users := User.mk (User.username userData)
                          (hashed (User.username userData))
                          (User.role userData)]> users
  end.

Definition booksToSeed : list Book.t :=
  [ Book.mk "The Lord of the Rings" "J.R.R. Tolkien" "978-0618640157" 1954 5 5 None;
    Book.mk "To Kill a Mockingbird" "Harper Lee" "978-0446310789" 1960 3 3 None;
    Book.mk "1984" "George Orwell" "978-0451524935" 1949 7 7 None;
    Book.mk "The Great Gatsby" "F. Scott Fitzgerald" "978-0743273565" 1925 4 2 None;
    Book.mk "Dune" "Frank Herbert" "978-0441013593" 1965 6 6 None ].

(** One round of the loop over [booksToSeed]. *)
Definition seedBook (bookData : Book.t) : Tx unit :=
  bookExists ← findOneBookByIsbn (Book.isbn bookData);
  match bookExists with
  | Some _ => mret ()
  | None => _ ← insertBook bookData; mret ()
  end.

Fixpoint seedBooks (l : list Book.t) : Tx unit :=
  match l with
  | [] => mret ()
  | bookData :: l => _ ← seedBook bookData; seedBooks l
  end.

(** [seedDatabase]: the users, then the books; an exception ends the
    seeding and is logged, what was saved until then stays. *)
Definition seedDatabase (hashed : string → string)
    (w : gmap Z User.t * Db) : gmap Z User.t * Db :=
  (foldl (λ (users : gmap Z User.t) (userData : User.t),
            seedUser hashed userData users) w.1 usersToSeed,
   (seedBooks booksToSeed w.2).2).

(** ** Two calls for one Title, in general *)

Definition borrowOf (c : BorrowCall.t) : Tx (Z * BorrowRecord.t) :=
  borrow (BorrowCall.now c) (BorrowCall.bookId c) (BorrowCall.userId c).

(** The call holds the row lock: it is past the read of the Title and has
    not settled. *)
Definition critical (p : Pc) : Prop :=
  match p with
  | AtFindRecord _ | AtSaveBook _ | AtSaveRecord _ | AtCommit _ => True
  | AtFindBook | Settled _ => False
  end.

(** What call [c] comes to when it takes the turns it has left, from [p] on,
    in a row. *)
Definition restRecord (c : BorrowCall.t) (old : Book.t) (db : Db)
    : (HttpException + Z * BorrowRecord.t) * Db :=
  match insertBorrowRecord (BorrowCall.now c) (BorrowCall.bookId c)
          (BorrowCall.userId c) db with
  | (inl e, _) =>
      (inl e, {| books := <[BorrowCall.bookId c := old]> (books db);
                 borrowRecords := borrowRecords db |})
  | (inr saved, db') => (inr saved, db')
  end.

Definition restBook (c : BorrowCall.t) (book : Book.t) (db : Db)
    : (HttpException + Z * BorrowRecord.t) * Db :=
  match saveBook (BorrowCall.bookId c)
          (Book.with_availableQuantity (Book.availableQuantity book - 1) book)
          db with
  | (inl e, _) => (inl e, db)
  | (inr _, db') => restRecord c book db'
  end.

Definition restFind (c : BorrowCall.t) (book : Book.t) (db : Db)
    : (HttpException + Z * BorrowRecord.t) * Db :=
  match findWhere (activeRecord (BorrowCall.bookId c) (BorrowCall.userId c))
          (borrowRecords db) with
  | Some _ => (inl alreadyBorrowed, db)
  | None => restBook c book db
  end.

Definition rest (c : BorrowCall.t) (p : Pc) (db : Db)
    : (HttpException + Z * BorrowRecord.t) * Db :=
  match p with
  | AtFindBook => borrowOf c db
  | AtFindRecord book => restFind c book db
  | AtSaveBook book => restBook c book db
  | AtSaveRecord old => restRecord c old db
  | AtCommit saved => (inr saved, db)
  | Settled result => (result, db)
  end.

(** The configurations two calls for the Title [id] go through from the
    store [db0]: at each of them, what has happened and what the call that
    holds the lock has left to do add up to the two calls run one after the
    other. *)
Inductive serialized (db0 : Db) (id : Z) (c1 c2 : BorrowCall.t)
    : Config → Prop :=
  | serialized_start : serialized db0 id c1 c2 (initial db0)
  | serialized_first (t : bool) p s :
      critical p → is_Some (books s !! id) →
      rest (if t then c1 else c2) p s = borrowOf (if t then c1 else c2) db0 →
      serialized db0 id c1 c2 (conf t s {[ id := t ]} p AtFindBook)
  | serialized_half (t : bool) r s :
      borrowOf (if t then c1 else c2) db0 = (r, s) →
      serialized db0 id c1 c2 (conf t s ∅ (Settled r) AtFindBook)
  | serialized_second (t : bool) p s r s1 :
      critical p → is_Some (books s !! id) →
      borrowOf (if t then c2 else c1) db0 = (r, s1) →
      rest (if t then c1 else c2) p s = borrowOf (if t then c1 else c2) s1 →
      serialized db0 id c1 c2 (conf t s {[ id := t ]} p (Settled r))
  | serialized_done_first :
      serialized db0 id c1 c2 (firstThenSecond c1 c2 db0)
  | serialized_done_second :
      serialized db0 id c1 c2 (secondThenFirst c1 c2 db0).

(** The cover image passes the checks of [create] and is written. *)
Definition fileAccepted (file : option MulterFile.t) (written : bool) : Prop :=
  match file with
  | None => True
  | Some f =>
      MulterFile.extname f ∈ allowedExtensions
      ∧ MulterFile.size f ≤ maxFileSize ∧ written = true
  end.

(** No Title carries the ISBN [i]. *)
Definition isbnFree (i : string) (db : Db) : Prop :=
  ∀ k b, books db !! k = Some b → Book.isbn b ≠ i.

(** A table of users with an administrator and a librarian. *)
Definition staff : gmap Z User.t :=
  {[ 1 := User.mk "admin" "$2b$10$hash-a" ADMIN;
     2 := User.mk "librarian" "$2b$10$hash-l" LIBRARIAN ]}.

(** * Part II: the properties *)

(** ** The operations on sample stores *)

Example borrow_sample :
  borrow 100 1 7 (sampleDb 5 5)
  = (inr (1, BorrowRecord.mk 100 (Some 100) 7 1),
     {| books := {[ 1 := sampleBook 5 4 ]};
        borrowRecords := {[ 1 := BorrowRecord.mk 100 (Some 100) 7 1 ]} |}).
Proof. vm_compute. reflexivity. Qed.

Example borrow_missing :
  borrow 100 999 7 (sampleDb 5 5)
  = (inl (NotFoundException "Book with ID 999 not found."), sampleDb 5 5).
Proof. vm_compute. reflexivity. Qed.

Example return_sample :
  return_ 20 1 7 libraryDb
  = (inr (1, BorrowRecord.mk 10 (Some 20) 7 1),
     {| books := {[ 1 := sampleBook 5 5; 2 := sampleBook 1 0 ]};
        borrowRecords := {[ 1 := BorrowRecord.mk 10 (Some 20) 7 1;
                            2 := BorrowRecord.mk 11 (Some 12) 8 1;
                            3 := BorrowRecord.mk 13 None 7 2 ]} |}).
Proof. vm_compute. reflexivity. Qed.

Example create_sample :
  create tolkien (Some (MulterFile.mk ".png" 100)) "mock-uuid-1234" true emptyDb
  = (inr (1, Book.mk "The Lord of the Rings" "J.R.R. Tolkien"
                "978-0-618-64015-7" 1954 2 2
                (Some "/storage/covers/mock-uuid-1234.png")),
     {| books := {[ 1 := Book.mk "The Lord of the Rings" "J.R.R. Tolkien"
                           "978-0-618-64015-7" 1954 2 2
                           (Some "/storage/covers/mock-uuid-1234.png") ]};
        borrowRecords := ∅ |}).
Proof. vm_compute. reflexivity. Qed.

(** A quantity of 10^21 reaches [parseInt] as the string 1e+21. *)
Example create_huge_quantity :
  create (CreateBookDto.mk "Dune" "Frank Herbert" "978-0441013593" 1965 (10 ^ 21))
    None "" true emptyDb
  = (inr (1, Book.mk "Dune" "Frank Herbert" "978-0441013593" 1965 1 1 None),
     {| books := {[ 1 := Book.mk "Dune" "Frank Herbert" "978-0441013593"
                           1965 1 1 None ]};
        borrowRecords := ∅ |}).
Proof. vm_compute. reflexivity. Qed.

Example create_quantity_out_of_range :
  create (CreateBookDto.mk "Dune" "Frank Herbert" "978-0441013593" 1965 (2 ^ 31))
    None "" true emptyDb
  = (inl integerOutOfRange, emptyDb).
Proof. vm_compute. reflexivity. Qed.

Example race_first_wins :
  runBorrows (BorrowCall.mk 10 1 7) (BorrowCall.mk 11 1 8)
    [true; false; true; false; true; true; false; true; false]
    (initial (sampleDb 1 1))
  = {| store := {| books := {[ 1 := sampleBook 1 0 ]};
                   borrowRecords :=
                     {[ 1 := BorrowRecord.mk 10 (Some 10) 7 1 ]} |};
       locks := ∅;
       pcFirst := Settled (inr (1, BorrowRecord.mk 10 (Some 10) 7 1));
       pcSecond := Settled (inl noCopies) |}.
Proof. vm_compute. reflexivity. Qed.

(** ** Facts about numbers *)

Lemma parseInt10_small n : Z.abs n < 10 ^ 21 → parseInt10 n = n.
Proof. intros Hn. unfold parseInt10. by rewrite bool_decide_eq_true_2. Qed.

Lemma div_nonneg a b : 0 ≤ a → 0 ≤ b → 0 ≤ a / b.
Proof.
  intros Ha Hb. destruct (decide (b = 0)) as [->|Hne].
  - by rewrite Z.div_0_r.
  - apply Z.div_pos; lia.
Qed.

Lemma roundToNumber_nonneg n : 0 ≤ n → 0 ≤ roundToNumber n.
Proof.
  intros Hn. unfold roundToNumber.
  pose proof (Z.pow_nonneg 2 (Z.log2 n - 52)) as Hpow.
  pose proof (div_nonneg n (2 ^ (Z.log2 n - 52)) Hn) as Hq.
  repeat case_match; nia.
Qed.

Lemma leadingDigit_nonneg more k p n : 0 ≤ n → 0 ≤ leadingDigit more k p n.
Proof.
  intros Hn. revert k. induction more as [|more IH]; intros k; simpl.
  - apply div_nonneg; [done|]. apply Z.pow_nonneg. lia.
  - assert (0 ≤ n / 10 ^ (p - k)) as Hs
      by (apply div_nonneg; [done|apply Z.pow_nonneg; lia]).
    repeat case_bool_decide; try done; try apply IH.
    all: apply div_nonneg; [lia|apply Z.pow_nonneg; lia].
Qed.

Lemma parseInt10_nonneg n : 0 ≤ n → 0 ≤ parseInt10 n.
Proof.
  intros Hn. unfold parseInt10. case_bool_decide; [done|].
  pose proof (leadingDigit_nonneg 17 1
                (decimalDigits (roundToNumber (Z.abs n)))
                (roundToNumber (Z.abs n))
                (roundToNumber_nonneg _ (Z.abs_nonneg n))) as Hd.
  assert (0 ≤ Z.sgn n) by lia. nia.
Qed.

(** ** Facts about the store *)

Section store.
Context {A : Type}.
Implicit Types m : gmap Z A.

Lemma foldr_max_upper (l : list Z) (k : Z) : k ∈ l → k ≤ foldr Z.max 0 l.
Proof.
  induction l as [|x l IH]; [by intros ?%elem_of_nil|].
  intros [->|Hk]%elem_of_cons; simpl; [lia|].
  specialize (IH Hk). lia.
Qed.

Lemma nextId_above m k : is_Some (m !! k) → k < nextId m.
Proof.
  intros [x Hk]. unfold nextId.
  assert (k ∈ (map_to_list m).*1) as Hin.
  { apply list_elem_of_fmap. exists (k, x). split; [done|].
    by apply elem_of_map_to_list. }
  apply foldr_max_upper in Hin. lia.
Qed.

Lemma nextId_fresh m : m !! nextId m = None.
Proof.
  destruct (m !! nextId m) as [x|] eqn:E; [|done].
  assert (nextId m < nextId m) by (apply nextId_above; eauto). lia.
Qed.

Context (P : Z * A → Prop) `{!∀ x, Decision (P x)}.

Lemma findWhere_Some m k x :
  findWhere P m = Some (k, x) → m !! k = Some x ∧ P (k, x).
Proof.
  unfold findWhere. intros Hhd%head_Some_elem_of.
  by apply elem_of_map_to_list, map_lookup_filter_Some in Hhd.
Qed.

Lemma findWhere_None m :
  findWhere P m = None ↔ ∀ k x, m !! k = Some x → ¬ P (k, x).
Proof.
  unfold findWhere.
  rewrite head_None, map_to_list_empty_iff, map_empty_filter. done.
Qed.

(** The only row that satisfies the clause is the one that is found. *)
Lemma findWhere_insert_fresh m k x :
  findWhere P m = None → P (k, x) →
  findWhere P (<[k := x]> m) = Some (k, x).
Proof.
  intros Hnone HP. unfold findWhere in *.
  rewrite head_None, map_to_list_empty_iff in Hnone.
  rewrite map_filter_insert_True, Hnone by done.
  by rewrite insert_empty, map_to_list_singleton.
Qed.
End store.

Lemma findOneBorrowRecord_None bookId userId db :
  findWhere (activeRecord bookId userId) (borrowRecords db) = None
  ↔ ¬ hasActiveRecord bookId userId db.
Proof.
  rewrite findWhere_None. unfold hasActiveRecord. split.
  - intros Hno (k & r & Hk & Hr). by apply (Hno k r).
  - intros Hno k r Hk Hr. apply Hno. eauto.
Qed.

Lemma findOneBorrowRecord_Some bookId userId db :
  hasActiveRecord bookId userId db →
  ∃ k r, findWhere (activeRecord bookId userId) (borrowRecords db) = Some (k, r)
         ∧ borrowRecords db !! k = Some r ∧ activeRecord bookId userId (k, r).
Proof.
  intros Hopen.
  destruct (findWhere (activeRecord bookId userId) (borrowRecords db))
    as [[k r]|] eqn:E.
  - exists k, r. split; [done|]. by apply findWhere_Some in E.
  - by apply findOneBorrowRecord_None in E.
Qed.

(** Saving a row whose ISBN is the stored one goes through. *)
Lemma saveBook_same_isbn id b b' db :
  books db !! id = Some b → Book.isbn b' = Book.isbn b →
  saveBook id b' db
  = (inr (id, b'), {| books := <[id := b']> (books db);
                      borrowRecords := borrowRecords db |}).
Proof.
  intros Hb Hi. unfold saveBook. rewrite Hb. simpl. rewrite Hi.
  by rewrite bool_decide_eq_false_2 by (by intros []).
Qed.

(** ** What the operations compute, case by case *)

Lemma borrow_eq now bookId userId db :
  borrow now bookId userId db =
  match books db !! bookId with
  | None => (inl (bookNotFound bookId), db)
  | Some book =>
      if bool_decide (Book.availableQuantity book ≤ 0) then (inl noCopies, db)
      else match findWhere (activeRecord bookId userId) (borrowRecords db) with
           | Some _ => (inl alreadyBorrowed, db)
           | None => (inr (nextId (borrowRecords db),
                           BorrowRecord.mk now (Some now) userId bookId),
                      borrowed now bookId userId book db)
           end
  end.
Proof.
  unfold borrow, transaction, mbind, Tx_bind, findOneBook, findOneBorrowRecord, throw.
  destruct (books db !! bookId) as [book|] eqn:Hb; [|done].
  case_bool_decide; [done|].
  destruct (findWhere _ _) as [?|]; [done|].
  by rewrite (saveBook_same_isbn _ book _ db Hb).
Qed.

Lemma return_eq now bookId userId db :
  return_ now bookId userId db =
  match books db !! bookId with
  | None => (inl (bookNotFound bookId), db)
  | Some book =>
      match findWhere (activeRecord bookId userId) (borrowRecords db) with
      | None => (inl noActiveRecord, db)
      | Some (recordId, r) =>
          if bool_decide (Book.quantity book ≤ Book.availableQuantity book)
          then (inl dataInconsistency, db)
          else (inr (recordId, BorrowRecord.with_returnedAt (Some now) r),
                returned now bookId recordId book r db)
      end
  end.
Proof.
  unfold return_, transaction, mbind, Tx_bind, findOneBook, findOneBorrowRecord, throw.
  destruct (books db !! bookId) as [book|] eqn:Hb; [|done].
  destruct (findWhere _ _) as [[recordId r]|]; [|done].
  case_bool_decide; [done|].
  by rewrite (saveBook_same_isbn _ book _ db Hb).
Qed.


(** ** Borrow *)

(** C2.  When the Title exists, has a copy available and the borrower holds no
    open Loan on it, [borrow] succeeds: the Title's [availableQuantity] goes
    down by one, one Loan is inserted for the pair under an id no Loan had,
    that Loan is returned, and nothing else changes.  The Loan is not an
    open one: its [returnedAt] is the time of the insert, like its
    [borrowedAt], and the borrower holds no open Loan on the Title
    afterwards either. *)
Theorem borrow_stores_closed_loan now bookId userId db book :
  books db !! bookId = Some book →
  0 < Book.availableQuantity book →
  ¬ hasActiveRecord bookId userId db →
  ∃ loanId db',
    let loan := BorrowRecord.mk now (Some now) userId bookId in
    let book' :=
      Book.mk (Book.title book) (Book.author book) (Book.isbn book)
        (Book.publicationYear book) (Book.quantity book)
        (Book.availableQuantity book - 1) (Book.coverImage book) in
    borrowRecords db !! loanId = None
    ∧ borrow now bookId userId db = (inr (loanId, loan), db')
    ∧ db' = {| books := <[bookId := book']> (books db);
               borrowRecords := <[loanId := loan]> (borrowRecords db) |}
    ∧ ¬ hasActiveRecord bookId userId db'.
Proof.
  intros Hbook Havail Hnone. eexists (nextId (borrowRecords db)), _.
  split; [apply nextId_fresh|].
  rewrite borrow_eq, Hbook.
  rewrite bool_decide_eq_false_2 by lia.
  pose proof Hnone as Hfind. apply findOneBorrowRecord_None in Hfind.
  rewrite Hfind. split; [done|]. split; [done|].
  intros (k & r & Hk & Hact). unfold borrowed in Hk; simpl in Hk.
  apply lookup_insert_Some in Hk as [[_ <-]|[_ Hk]].
  - by destruct Hact as (_ & _ & ?).
  - apply Hnone. by exists k, r.
Qed.

Lemma borrow_stores_closed_loan_witness :
  books (sampleDb 1 1) !! 1 = Some (sampleBook 1 1)
  ∧ 0 < Book.availableQuantity (sampleBook 1 1)
  ∧ ¬ hasActiveRecord 1 7 (sampleDb 1 1)
  ∧ ∃ loanId db',
      borrowRecords (sampleDb 1 1) !! loanId = None
      ∧ borrow 20 1 7 (sampleDb 1 1)
        = (inr (loanId, BorrowRecord.mk 20 (Some 20) 7 1), db')
      ∧ db' = {| books := <[1 := sampleBook 1 0]> (books (sampleDb 1 1));
                 borrowRecords :=
                   <[loanId := BorrowRecord.mk 20 (Some 20) 7 1]>
                     (borrowRecords (sampleDb 1 1)) |}
      ∧ ¬ hasActiveRecord 1 7 db'.
Proof.
  assert (¬ hasActiveRecord 1 7 (sampleDb 1 1)) as Hnone
    by (apply findOneBorrowRecord_None; vm_compute; reflexivity).
  split; [reflexivity|]. split; [simpl; lia|]. split; [exact Hnone|].
  apply (borrow_stores_closed_loan 20 1 7 (sampleDb 1 1) (sampleBook 1 1));
    [reflexivity | simpl; lia | exact Hnone].
Defined.

(** C3.  [borrow] fails exactly when a precondition is violated: the Title is
    missing, or it has no copy available, or the borrower holds an open Loan on
    it.  The exception is [NotFoundException] for a missing Title,
    [BadRequestException] "No copies of this book are available." (the spec's
    InvalidState) when [availableQuantity] is not above 0, and
    [ConflictException] when the open Loan exists; every failure leaves the
    store as it was. *)
Theorem borrow_fails_exactly now bookId userId db :
  (failed (borrow now bookId userId db)
   ↔ books db !! bookId = None
     ∨ (∃ book, books db !! bookId = Some book ∧ Book.availableQuantity book ≤ 0)
     ∨ hasActiveRecord bookId userId db)
  ∧ (books db !! bookId = None →
     borrow now bookId userId db = (inl (bookNotFound bookId), db))
  ∧ (∀ book, books db !! bookId = Some book →
       Book.availableQuantity book ≤ 0 →
       borrow now bookId userId db = (inl noCopies, db))
  ∧ (∀ book, books db !! bookId = Some book →
       0 < Book.availableQuantity book →
       hasActiveRecord bookId userId db →
       borrow now bookId userId db = (inl alreadyBorrowed, db))
  ∧ (failed (borrow now bookId userId db) →
     (borrow now bookId userId db).2 = db).
Proof.
  rewrite borrow_eq. unfold failed.
  split; [|split; [|split; [|split]]].
  - destruct (books db !! bookId) as [book|] eqn:Hbook; [|split; eauto].
    case_bool_decide as Havail; [split; eauto 6|].
    destruct (findWhere _ _) as [[k r]|] eqn:Hfind.
    + apply findWhere_Some in Hfind. unfold hasActiveRecord. split; eauto 8.
    + apply findOneBorrowRecord_None in Hfind. simpl. split.
      * by intros [e ?].
      * intros [?|[(book' & ? & ?)|?]]; simplify_eq; [lia|done].
  - by intros ->.
  - intros book -> Havail. by rewrite bool_decide_eq_true_2.
  - intros book -> Havail Hopen. rewrite bool_decide_eq_false_2 by lia.
    by destruct (findOneBorrowRecord_Some _ _ _ Hopen) as (k & r & -> & _).
  - destruct (books db !! bookId) as [book|]; [|done].
    case_bool_decide; [done|].
    destruct (findWhere _ _); [done|]. by intros [e ?].
Qed.

Lemma libraryDb_open_1_7 : hasActiveRecord 1 7 libraryDb.
Proof.
  exists 1, (BorrowRecord.mk 10 None 7 1). split; [reflexivity|]. repeat split.
Defined.

Lemma borrow_fails_exactly_witness :
  failed (borrow 20 1 7 libraryDb)
  ∧ borrow 20 1 7 libraryDb = (inl alreadyBorrowed, libraryDb)
  ∧ borrow 20 2 8 libraryDb = (inl noCopies, libraryDb)
  ∧ borrow 20 3 8 libraryDb = (inl (bookNotFound 3), libraryDb).
Proof.
  assert (borrow 20 1 7 libraryDb = (inl alreadyBorrowed, libraryDb)) as Hdup.
  { destruct (borrow_fails_exactly 20 1 7 libraryDb) as (_ & _ & _ & Hc & _).
    apply (Hc (sampleBook 5 4));
      [reflexivity | simpl; lia | exact libraryDb_open_1_7]. }
  split; [|split; [exact Hdup|split]].
  - apply (proj1 (borrow_fails_exactly 20 1 7 libraryDb)).
    right; right. exact libraryDb_open_1_7.
  - destruct (borrow_fails_exactly 20 2 8 libraryDb) as (_ & _ & Hc & _).
    apply (Hc (sampleBook 1 0)); [reflexivity | simpl; lia].
  - destruct (borrow_fails_exactly 20 3 8 libraryDb) as (_ & Hc & _).
    apply Hc. reflexivity.
Defined.

(** C10.  With no copy left and an open Loan of the caller on the Title, both
    the availability and the one-open-Loan precondition are violated, and
    [borrow] reports the first: "No copies of this book are available.", not
    the Conflict. *)
Theorem borrow_no_copies_before_conflict now bookId userId db book :
  books db !! bookId = Some book →
  Book.availableQuantity book = 0 →
  hasActiveRecord bookId userId db →
  borrow now bookId userId db = (inl noCopies, db)
  ∧ borrow now bookId userId db ≠ (inl alreadyBorrowed, db).
Proof.
  intros Hbook Havail _. rewrite borrow_eq, Hbook.
  by rewrite bool_decide_eq_true_2 by lia.
Qed.

Lemma borrow_no_copies_before_conflict_witness :
  books libraryDb !! 2 = Some (sampleBook 1 0)
  ∧ Book.availableQuantity (sampleBook 1 0) = 0
  ∧ hasActiveRecord 2 7 libraryDb
  ∧ borrow 20 2 7 libraryDb = (inl noCopies, libraryDb)
  ∧ borrow 20 2 7 libraryDb ≠ (inl alreadyBorrowed, libraryDb).
Proof.
  assert (hasActiveRecord 2 7 libraryDb) as Hopen.
  { exists 3, (BorrowRecord.mk 13 None 7 2). split; [reflexivity|].
    repeat split. }
  split; [reflexivity|]. split; [reflexivity|]. split; [exact Hopen|].
  apply (borrow_no_copies_before_conflict 20 2 7 libraryDb (sampleBook 1 0));
    [reflexivity | reflexivity | exact Hopen].
Defined.

(** ** Return *)

(** C4.  When the Title exists, the borrower holds an open Loan on it and
    [availableQuantity] is below [quantity], [return] succeeds: the Title's
    [availableQuantity] goes up by one and its other fields stay; an open
    Loan of the pair gets [returnedAt] set to the current time, keeps its
    [borrowedAt], its borrower and its Title, and is returned; and nothing
    else changes. *)
Theorem return_succeeds now bookId userId db book :
  books db !! bookId = Some book →
  hasActiveRecord bookId userId db →
  Book.availableQuantity book < Book.quantity book →
  ∃ loanId loan,
    let closed :=
      BorrowRecord.mk (BorrowRecord.borrowedAt loan) (Some now) userId bookId in
    let book' :=
      Book.mk (Book.title book) (Book.author book) (Book.isbn book)
        (Book.publicationYear book) (Book.quantity book)
        (Book.availableQuantity book + 1) (Book.coverImage book) in
    borrowRecords db !! loanId = Some loan
    ∧ BorrowRecord.book loan = bookId
    ∧ BorrowRecord.user loan = userId
    ∧ BorrowRecord.returnedAt loan = None
    ∧ return_ now bookId userId db
      = (inr (loanId, closed),
         {| books := <[bookId := book']> (books db);
            borrowRecords := <[loanId := closed]> (borrowRecords db) |}).
Proof.
  intros Hbook Hopen Hlt.
  destruct (findOneBorrowRecord_Some _ _ _ Hopen)
    as (k & r & Hfind & Hk & Hb & Hu & Hr).
  exists k, r. simpl in Hb, Hu, Hr.
  split; [done|]. split; [done|]. split; [done|]. split; [done|].
  rewrite return_eq, Hbook, Hfind.
  rewrite bool_decide_eq_false_2 by lia.
  unfold returned, BorrowRecord.with_returnedAt, Book.with_availableQuantity.
  by rewrite Hb, Hu.
Qed.

Lemma return_succeeds_witness :
  books libraryDb !! 1 = Some (sampleBook 5 4)
  ∧ hasActiveRecord 1 7 libraryDb
  ∧ Book.availableQuantity (sampleBook 5 4) < Book.quantity (sampleBook 5 4)
  ∧ (∃ loanId loan,
       borrowRecords libraryDb !! loanId = Some loan
       ∧ BorrowRecord.book loan = 1
       ∧ BorrowRecord.user loan = 7
       ∧ BorrowRecord.returnedAt loan = None
       ∧ return_ 20 1 7 libraryDb
         = (inr (loanId,
                 BorrowRecord.mk (BorrowRecord.borrowedAt loan) (Some 20) 7 1),
            {| books := <[1 := sampleBook 5 5]> (books libraryDb);
               borrowRecords :=
                 <[loanId := BorrowRecord.mk (BorrowRecord.borrowedAt loan)
                               (Some 20) 7 1]> (borrowRecords libraryDb) |}))
  ∧ return_ 20 1 7 libraryDb
    = (inr (1, BorrowRecord.mk 10 (Some 20) 7 1),
       {| books := {[ 1 := sampleBook 5 5; 2 := sampleBook 1 0 ]};
          borrowRecords := {[ 1 := BorrowRecord.mk 10 (Some 20) 7 1;
                              2 := BorrowRecord.mk 11 (Some 12) 8 1;
                              3 := BorrowRecord.mk 13 None 7 2 ]} |}).
Proof.
  split; [reflexivity|]. split; [exact libraryDb_open_1_7|].
  split; [simpl; lia|]. split; [|vm_compute; reflexivity].
  apply (return_succeeds 20 1 7 libraryDb (sampleBook 5 4));
    [reflexivity | exact libraryDb_open_1_7 | simpl; lia].
Defined.

(** C5.  When the Title exists and the borrower holds an open Loan on it, but
    [availableQuantity] is not below [quantity], [return] throws the
    [InternalServerErrorException] and the store is as it was: the count is
    neither raised nor clamped and the Loan stays open. *)
Theorem return_detects_corruption now bookId userId db book :
  books db !! bookId = Some book →
  hasActiveRecord bookId userId db →
  Book.quantity book ≤ Book.availableQuantity book →
  return_ now bookId userId db = (inl dataInconsistency, db).
Proof.
  intros Hbook Hopen Hge.
  destruct (findOneBorrowRecord_Some _ _ _ Hopen) as (k & r & Hfind & _).
  rewrite return_eq, Hbook, Hfind.
  by rewrite bool_decide_eq_true_2 by lia.
Qed.

Lemma corruptDb_open_1_7 : hasActiveRecord 1 7 corruptDb.
Proof.
  exists 1, (BorrowRecord.mk 10 None 7 1). split; [reflexivity|]. repeat split.
Defined.

Lemma return_detects_corruption_witness :
  books corruptDb !! 1 = Some (sampleBook 5 5)
  ∧ hasActiveRecord 1 7 corruptDb
  ∧ Book.quantity (sampleBook 5 5) ≤ Book.availableQuantity (sampleBook 5 5)
  ∧ return_ 20 1 7 corruptDb = (inl dataInconsistency, corruptDb).
Proof.
  split; [reflexivity|]. split; [exact corruptDb_open_1_7|].
  split; [simpl; lia|].
  apply (return_detects_corruption 20 1 7 corruptDb (sampleBook 5 5));
    [reflexivity | exact corruptDb_open_1_7 | simpl; lia].
Defined.

(** C8.  When the Title exists and the borrower holds no open Loan on it,
    whatever the counts are, [return] throws [NotFoundException] "No active
    borrow record..." and the store, hence the Title's counts, is as it was;
    when the Title is missing [return] throws [NotFoundException] too. *)
Theorem return_without_loan now bookId userId db :
  (∀ book, books db !! bookId = Some book →
     ¬ hasActiveRecord bookId userId db →
     return_ now bookId userId db = (inl noActiveRecord, db))
  ∧ (books db !! bookId = None →
     return_ now bookId userId db = (inl (bookNotFound bookId), db)).
Proof.
  split.
  - intros book Hbook Hnone%findOneBorrowRecord_None.
    by rewrite return_eq, Hbook, Hnone.
  - intros Hbook. by rewrite return_eq, Hbook.
Qed.

Lemma return_without_loan_witness :
  return_ 20 1 9 corruptDb = (inl noActiveRecord, corruptDb)
  ∧ return_ 20 4 7 corruptDb
    = (inl (NotFoundException "Book with ID 4 not found."), corruptDb).
Proof.
  split.
  - apply (proj1 (return_without_loan 20 1 9 corruptDb) (sampleBook 5 5));
      [reflexivity|].
    apply findOneBorrowRecord_None. vm_compute. reflexivity.
  - apply (proj2 (return_without_loan 20 4 7 corruptDb)). reflexivity.
Defined.

(** ** Round trip *)

(** C7.  The round trip fails on the code: whenever [borrow] succeeds, the
    Loan it has stored carries the time of the insert as [returnedAt], so
    the [return] of the same borrower on the same Title that follows finds
    no open Loan and throws NotFound "No active borrow record..."; the store
    stays as the borrow left it, with the Title's [availableQuantity] one
    below its value before the borrow. *)
Theorem return_after_borrow now1 now2 bookId userId db loan db1 :
  borrow now1 bookId userId db = (inr loan, db1) →
  return_ now2 bookId userId db1 = (inl noActiveRecord, db1)
  ∧ BorrowRecord.returnedAt loan.2 = Some now1
  ∧ ∃ book book1,
      books db !! bookId = Some book
      ∧ books db1 !! bookId = Some book1
      ∧ Book.availableQuantity book1 = Book.availableQuantity book - 1.
Proof.
  intros Hborrow. rewrite borrow_eq in Hborrow.
  destruct (books db !! bookId) as [book|] eqn:Hbook; [|done].
  case_bool_decide as Havail; [done|].
  destruct (findWhere _ _) as [?|] eqn:Hfind; [done|].
  injection Hborrow as <- <-.
  split; [|split; [done|]].
  - rewrite return_eq. unfold borrowed; simpl. rewrite lookup_insert_eq.
    assert (findWhere (activeRecord bookId userId)
              (<[nextId (borrowRecords db) :=
                   BorrowRecord.mk now1 (Some now1) userId bookId]>
                 (borrowRecords db)) = None) as ->; [|done].
    apply findWhere_None. intros k r Hk Hact.
    apply lookup_insert_Some in Hk as [[_ <-]|[_ Hk]].
    + by destruct Hact as (_ & _ & ?).
    + rewrite findWhere_None in Hfind. by apply (Hfind k r).
  - exists book. eexists. split; [done|].
    unfold borrowed; simpl. by rewrite lookup_insert_eq.
Qed.

Lemma return_after_borrow_witness :
  borrow 10 1 7 (sampleDb 2 2)
  = (inr (1, BorrowRecord.mk 10 (Some 10) 7 1),
     {| books := {[ 1 := sampleBook 2 1 ]};
        borrowRecords := {[ 1 := BorrowRecord.mk 10 (Some 10) 7 1 ]} |})
  ∧ return_ 20 1 7
      {| books := {[ 1 := sampleBook 2 1 ]};
         borrowRecords := {[ 1 := BorrowRecord.mk 10 (Some 10) 7 1 ]} |}
    = (inl noActiveRecord,
       {| books := {[ 1 := sampleBook 2 1 ]};
          borrowRecords := {[ 1 := BorrowRecord.mk 10 (Some 10) 7 1 ]} |}).
Proof.
  assert (borrow 10 1 7 (sampleDb 2 2)
          = (inr (1, BorrowRecord.mk 10 (Some 10) 7 1),
             {| books := {[ 1 := sampleBook 2 1 ]};
                borrowRecords :=
                  {[ 1 := BorrowRecord.mk 10 (Some 10) 7 1 ]} |})) as Hborrow
    by (vm_compute; reflexivity).
  split; [exact Hborrow|].
  exact (proj1 (return_after_borrow 10 20 1 7 (sampleDb 2 2) _ _ Hborrow)).
Defined.

(** ** Quantity reconciliation *)




(** ** The core invariant *)

Section open_loans.
Lemma openLoans_insert_new bookId books' k r db :
  borrowRecords db !! k = None →
  BorrowRecord.returnedAt r = None →
  openLoans bookId {| books := books'; borrowRecords := <[k := r]> (borrowRecords db) |}
  = if decide (BorrowRecord.book r = bookId) then S (openLoans bookId db)
    else openLoans bookId db.
Proof.
  intros Hk Hr. unfold openLoans; simpl. case_decide as Hb.
  - rewrite map_filter_insert_True by done.
    apply map_size_insert_None, map_lookup_filter_None. by left.
  - rewrite map_filter_insert_not'; [done| |by rewrite Hk].
    by intros [? _].
Qed.

Lemma openLoans_insert_closed bookId books' k r db :
  borrowRecords db !! k = None →
  BorrowRecord.returnedAt r ≠ None →
  openLoans bookId
    {| books := books'; borrowRecords := <[k := r]> (borrowRecords db) |}
  = openLoans bookId db.
Proof.
  intros Hk Hr. unfold openLoans; simpl.
  rewrite map_filter_insert_not'; [done| |by rewrite Hk].
  by intros [_ ?].
Qed.

Lemma openLoans_close bookId books' k r v db :
  borrowRecords db !! k = Some r →
  BorrowRecord.returnedAt r = None →
  openLoans bookId
    {| books := books';
       borrowRecords := <[k := BorrowRecord.with_returnedAt (Some v) r]>
                          (borrowRecords db) |}
  = if decide (BorrowRecord.book r = bookId) then pred (openLoans bookId db)
    else openLoans bookId db.
Proof.
  intros Hk Hr. unfold openLoans; simpl. case_decide as Hb.
  - rewrite map_filter_insert_False by (by intros [_ ?]).
    rewrite map_filter_delete.
    apply map_size_delete_Some. exists r.
    by apply map_lookup_filter_Some.
  - apply f_equal, map_filter_insert_not'.
    + by intros [_ ?].
    + intros y Hy [? _]. by simplify_eq.
Qed.

Lemma openLoans_none bookId db :
  (∀ k r, borrowRecords db !! k = Some r → BorrowRecord.book r ≠ bookId) →
  openLoans bookId db = 0%nat.
Proof.
  intros Hno. unfold openLoans.
  rewrite (map_empty_filter_2 (openLoan bookId) (borrowRecords db));
    [apply map_size_empty|].
  intros k r Hk [Hb _]. by apply (Hno k r).
Qed.
End open_loans.

(** What a committed [create] and a committed [update] have done. *)
Lemma create_inv dto file uuid written db id book db' :
  create dto file uuid written db = (inr (id, book), db') →
  findWhere (hasIsbn (CreateBookDto.isbn dto)) (books db) = None
  ∧ id = nextId (books db)
  ∧ Book.quantity book = parseInt10 (CreateBookDto.quantity dto)
  ∧ Book.availableQuantity book = parseInt10 (CreateBookDto.quantity dto)
  ∧ Book.isbn book = CreateBookDto.isbn dto
  ∧ db' = {| books := <[id := book]> (books db);
             borrowRecords := borrowRecords db |}.
Proof.
  unfold create, mbind, Tx_bind, findOneBookByIsbn, throw.
  destruct (findWhere _ _) as [?|] eqn:Hfind; [done|].
  destruct (storeCover file uuid written db) as [[e|cover] db1] eqn:Hcover;
    [done|].
  assert (db1 = db) as ->.
  { unfold storeCover, throw, mret, Tx_ret in Hcover.
    destruct file as [f|]; [|by simplify_eq].
    repeat (case_match; try done); by simplify_eq. }
  unfold insertBook, saveBook.
  case_bool_decide; [|done].
  case_match; [done|]. intros; simplify_eq. done.
Qed.

Lemma update_inv id dto db r db' :
  update id dto db = (inr r, db') →
  ∃ book book',
    books db !! id = Some book
    ∧ r = (id, book')
    ∧ db' = {| books := <[id := book']> (books db);
               borrowRecords := borrowRecords db |}
    ∧ match UpdateBookDto.quantity dto with
      | Some newQuantity =>
          Book.quantity book - Book.availableQuantity book ≤ newQuantity
          ∧ Book.quantity book' = newQuantity
          ∧ Book.availableQuantity book'
            = newQuantity - (Book.quantity book - Book.availableQuantity book)
      | None =>
          Book.quantity book' = Book.quantity book
          ∧ Book.availableQuantity book' = Book.availableQuantity book
      end.
Proof.
  unfold update, findOne, mbind, Tx_bind, findOneBook, throw, mret, Tx_ret.
  destruct (books db !! id) as [book|] eqn:Hbook; [|done].
  destruct (UpdateBookDto.quantity dto) as [q|] eqn:Hq.
  - case_bool_decide as Hlt; [done|].
    unfold saveBook. case_match; [done|]. intros; simplify_eq.
    eexists _, _. split; [done|]. split; [done|]. split; [done|].
    simpl. rewrite Hq. simpl. split; [lia|done].
  - unfold saveBook. case_match; [done|]. intros; simplify_eq.
    eexists _, _. split; [done|]. split; [done|]. split; [done|].
    simpl. by rewrite Hq.
Qed.

Lemma borrow_inv now bookId userId db r db' :
  borrow now bookId userId db = (inr r, db') →
  ∃ book,
    books db !! bookId = Some book
    ∧ 0 < Book.availableQuantity book
    ∧ ¬ hasActiveRecord bookId userId db
    ∧ r = (nextId (borrowRecords db),
           BorrowRecord.mk now (Some now) userId bookId)
    ∧ db' = borrowed now bookId userId book db.
Proof.
  rewrite borrow_eq.
  destruct (books db !! bookId) as [book|]; [|done].
  case_bool_decide; [done|].
  destruct (findWhere _ _) eqn:Hfind; [done|].
  apply findOneBorrowRecord_None in Hfind.
  intros; simplify_eq. exists book. repeat split; try done. lia.
Qed.

Lemma return_inv now bookId userId db r db' :
  return_ now bookId userId db = (inr r, db') →
  ∃ book recordId record,
    books db !! bookId = Some book
    ∧ borrowRecords db !! recordId = Some record
    ∧ activeRecord bookId userId (recordId, record)
    ∧ Book.availableQuantity book < Book.quantity book
    ∧ r = (recordId, BorrowRecord.with_returnedAt (Some now) record)
    ∧ db' = returned now bookId recordId book record db.
Proof.
  rewrite return_eq.
  destruct (books db !! bookId) as [book|]; [|done].
  destruct (findWhere _ _) as [[k rec]|] eqn:Hfind; [|done].
  case_bool_decide; [done|].
  apply findWhere_Some in Hfind as [Hk Hact].
  intros; simplify_eq. exists book, k, rec. repeat split; try done; try lia.
  all: by destruct Hact as (? & ? & ?).
Qed.

(** *** [return], [update] and [create] keep the invariant *)

Lemma return_preserves now bookId userId db r db' :
  coreInvariant db →
  return_ now bookId userId db = (inr r, db') → coreInvariant db'.
Proof.
  intros Hinv (book & k & rec & Hbook & Hk & (Hrb & _ & Hopen) & Hlt & _ & ->)%return_inv
    id b Hb.
  unfold returned in *; simpl in *.
  rewrite openLoans_close by done.
  destruct (decide (id = bookId)) as [->|Hne].
  - rewrite lookup_insert_eq in Hb. simplify_eq. simpl.
    rewrite decide_True by done.
    destruct (Hinv _ _ Hbook) as [? ?]. lia.
  - rewrite lookup_insert_ne in Hb by done.
    rewrite decide_False by congruence. by apply Hinv.
Qed.

Lemma update_preserves id dto db r db' :
  coreInvariant db →
  update id dto db = (inr r, db') → coreInvariant db'.
Proof.
  intros Hinv (book & book' & Hbook & _ & -> & Hq)%update_inv id' b Hb.
  simpl in Hb.
  change (openLoans id' _) with (openLoans id' db).
  destruct (decide (id' = id)) as [->|Hne].
  - rewrite lookup_insert_eq in Hb. simplify_eq.
    destruct (Hinv _ _ Hbook) as [? ?].
    destruct (UpdateBookDto.quantity dto); lia.
  - rewrite lookup_insert_ne in Hb by done. by apply Hinv.
Qed.

Lemma updateQuantity_preserves id newTotal db r db' :
  coreInvariant db →
  updateQuantity id newTotal db = (inr r, db') → coreInvariant db'.
Proof. apply update_preserves. Qed.

(** [create] adds a Title that has all of its copies and no Loan. *)
Lemma create_establishes dto file uuid written db id book db' :
  coreInvariant db → referencesExist db →
  CreateBookDto.quantity_valid dto →
  create dto file uuid written db = (inr (id, book), db') →
  coreInvariant db'
  ∧ books db !! id = None
  ∧ books db' !! id = Some book
  ∧ Book.availableQuantity book = Book.quantity book
  ∧ openLoans id db' = 0%nat.
Proof.
  intros Hinv Href Hvalid (_ & -> & Hq & Ha & _ & ->)%create_inv.
  unfold CreateBookDto.quantity_valid in Hvalid.
  assert (0 ≤ Book.quantity book) as Hpos
    by (rewrite Hq; apply parseInt10_nonneg; lia).
  assert (openLoans (nextId (books db)) db = 0%nat) as Hnone.
  { apply openLoans_none. intros k r Hk Heq.
    destruct (Href k r Hk) as [b Hb].
    rewrite Heq, nextId_fresh in Hb. done. }
  split; [|split; [apply nextId_fresh|split; [apply lookup_insert_eq|]]].
  - intros id b Hb. simpl in Hb.
    change (openLoans id _) with (openLoans id db).
    destruct (decide (id = nextId (books db))) as [->|Hne].
    + rewrite lookup_insert_eq in Hb. simplify_eq. rewrite Hnone. lia.
    + rewrite lookup_insert_ne in Hb by done. by apply Hinv.
  - split; [lia|exact Hnone].
Qed.

(** *** Each operation keeps the foreign keys *)

Lemma create_references dto file uuid written db r db' :
  referencesExist db →
  create dto file uuid written db = (inr r, db') → referencesExist db'.
Proof.
  destruct r as [id book].
  intros Href (_ & -> & _ & _ & _ & ->)%create_inv k r Hk. simpl in *.
  destruct (Href k r Hk) as [b Hb].
  destruct (decide (BorrowRecord.book r = nextId (books db))) as [->|Hne].
  - rewrite lookup_insert_eq. eauto.
  - rewrite lookup_insert_ne by done. eauto.
Qed.

Lemma update_references id dto db r db' :
  referencesExist db →
  update id dto db = (inr r, db') → referencesExist db'.
Proof.
  intros Href (book & book' & Hbook & _ & -> & _)%update_inv k rec Hk.
  simpl in *. destruct (Href k rec Hk) as [b Hb].
  destruct (decide (BorrowRecord.book rec = id)) as [->|Hne].
  - rewrite lookup_insert_eq. eauto.
  - rewrite lookup_insert_ne by done. eauto.
Qed.

Lemma borrow_references now bookId userId db r db' :
  referencesExist db →
  borrow now bookId userId db = (inr r, db') → referencesExist db'.
Proof.
  intros Href (book & Hbook & _ & _ & _ & ->)%borrow_inv k rec Hk.
  unfold borrowed in *; simpl in *.
  apply lookup_insert_Some in Hk as [[_ <-]|[_ Hk]]; simpl.
  - rewrite lookup_insert_eq. eauto.
  - destruct (Href k rec Hk) as [b Hb].
    destruct (decide (BorrowRecord.book rec = bookId)) as [->|Hne].
    + rewrite lookup_insert_eq. eauto.
    + rewrite lookup_insert_ne by done. eauto.
Qed.

Lemma return_references now bookId userId db r db' :
  referencesExist db →
  return_ now bookId userId db = (inr r, db') → referencesExist db'.
Proof.
  intros Href (book & k0 & rec0 & Hbook & Hk0 & _ & _ & _ & ->)%return_inv k rec Hk.
  unfold returned in *; simpl in *.
  assert (is_Some (books db !! BorrowRecord.book rec)) as [b Hb].
  { apply lookup_insert_Some in Hk as [[_ <-]|[_ Hk]]; simpl; eauto. }
  destruct (decide (BorrowRecord.book rec = bookId)) as [->|Hne].
  - rewrite lookup_insert_eq. eauto.
  - rewrite lookup_insert_ne by done. eauto.
Qed.

Lemma emptyDb_consistent : coreInvariant emptyDb ∧ referencesExist emptyDb.
Proof. split; intros k x Hk; simpl in Hk; by rewrite lookup_empty in Hk. Qed.

Lemma tolkienDb_consistent : coreInvariant tolkienDb.
Proof.
  intros id book Hbook. simpl in Hbook.
  apply lookup_singleton_Some in Hbook as [<- <-].
  split; [simpl; lia|]. vm_compute. reflexivity.
Qed.

Lemma createdDb_consistent : coreInvariant createdDb.
Proof.
  intros id book Hbook. simpl in Hbook.
  apply lookup_singleton_Some in Hbook as [<- <-].
  split; [simpl; lia|]. vm_compute. reflexivity.
Qed.

(** C1.  The core invariant does not survive a [borrow]: in a store in
    which it holds, a committed [borrow] lowers the [availableQuantity] of
    the Title by one, and the Loan it inserts, with [returnedAt] set, is not
    an open Loan, so the number of open Loans that refer to the Title is
    what it was; afterwards [quantity - availableQuantity] is one above that
    number, and the invariant is broken. *)
Theorem borrow_breaks_core_invariant now bookId userId db r db' :
  coreInvariant db →
  borrow now bookId userId db = (inr r, db') →
  (∃ book book',
     books db !! bookId = Some book
     ∧ books db' !! bookId = Some book'
     ∧ Book.quantity book' = Book.quantity book
     ∧ Book.availableQuantity book' = Book.availableQuantity book - 1
     ∧ openLoans bookId db' = openLoans bookId db
     ∧ Book.quantity book' - Book.availableQuantity book'
       = Z.of_nat (openLoans bookId db') + 1)
  ∧ ¬ coreInvariant db'.
Proof.
  intros Hinv (book & Hbook & _ & _ & _ & ->)%borrow_inv.
  set (book' := Book.with_availableQuantity
                  (Book.availableQuantity book - 1) book).
  assert (books (borrowed now bookId userId book db) !! bookId = Some book')
    as Hbook' by (unfold borrowed; simpl; apply lookup_insert_eq).
  assert (openLoans bookId (borrowed now bookId userId book db)
          = openLoans bookId db) as Hloans
    by (apply openLoans_insert_closed; [apply nextId_fresh|done]).
  destruct (Hinv _ _ Hbook) as [_ Hcount].
  assert (Book.quantity book' - Book.availableQuantity book'
          = Z.of_nat (openLoans bookId (borrowed now bookId userId book db)) + 1)
    as Hoff by (rewrite Hloans; simpl; lia).
  split.
  - exists book, book'. repeat split; done.
  - intros Hinv'. destruct (Hinv' _ _ Hbook') as [_ Hcount']. lia.
Qed.

Lemma borrow_breaks_core_invariant_witness :
  create tolkien None "" true emptyDb
  = (inr (1, Book.mk "The Lord of the Rings" "J.R.R. Tolkien"
                "978-0-618-64015-7" 1954 2 2 None), createdDb)
  ∧ coreInvariant createdDb
  ∧ borrow 10 1 7 createdDb
    = (inr (1, BorrowRecord.mk 10 (Some 10) 7 1),
       {| books := {[ 1 := Book.mk "The Lord of the Rings" "J.R.R. Tolkien"
                             "978-0-618-64015-7" 1954 2 1 None ]};
          borrowRecords := {[ 1 := BorrowRecord.mk 10 (Some 10) 7 1 ]} |})
  ∧ ¬ coreInvariant
        {| books := {[ 1 := Book.mk "The Lord of the Rings" "J.R.R. Tolkien"
                              "978-0-618-64015-7" 1954 2 1 None ]};
           borrowRecords := {[ 1 := BorrowRecord.mk 10 (Some 10) 7 1 ]} |}.
Proof.
  assert (borrow 10 1 7 createdDb
          = (inr (1, BorrowRecord.mk 10 (Some 10) 7 1),
             {| books := {[ 1 := Book.mk "The Lord of the Rings"
                                   "J.R.R. Tolkien" "978-0-618-64015-7"
                                   1954 2 1 None ]};
                borrowRecords :=
                  {[ 1 := BorrowRecord.mk 10 (Some 10) 7 1 ]} |})) as Hborrow
    by (vm_compute; reflexivity).
  split; [vm_compute; reflexivity|]. split; [exact createdDb_consistent|].
  split; [exact Hborrow|].
  exact (proj2 (borrow_breaks_core_invariant 10 1 7 createdDb _ _
                  createdDb_consistent Hborrow)).
Defined.

(** ** Two calls for the last copy *)

(** A call that takes its five turns in a row, on a Title that is not locked,
    does what [borrow] does. *)
Lemma solo_call_is_borrow c t cfg :
  pcOf t cfg = AtFindBook →
  locks cfg !! BorrowCall.bookId c = None →
  let r := borrow (BorrowCall.now c) (BorrowCall.bookId c) (BorrowCall.userId c)
             (store cfg) in
  Nat.iter 5 (stepBorrow c t) cfg = resume t (Settled r.1) r.2 (locks cfg) cfg.
Proof.
  intros Hpc Hlock. rewrite borrow_eq.
  unfold Nat.iter; cbn [nat_rect].
  destruct cfg as [db l p1 p2]. simpl in Hlock.
  cbv beta iota zeta delta [store locks].
  destruct t; simpl in Hpc; subst.
  all: turn; destruct (books db !! BorrowCall.bookId c) as [book|] eqn:Hbook;
    [|by repeat turn].
  all: rewrite Hlock; case_bool_decide; cbv iota; [by repeat turn|].
  all: turn; destruct (findWhere _ _) eqn:Hfind;
    [repeat turn; simpl; by rewrite delete_insert_id|].
  all: turn;
    rewrite (saveBook_same_isbn _ book
               (Book.with_availableQuantity (Book.availableQuantity book - 1) book)
               db Hbook eq_refl); cbv iota.
  all: repeat turn; unfold insertBorrowRecord, saveBorrowRecord; cbv beta iota.
  all: repeat turn; unfold resume, borrowed; simpl.
  all: by rewrite delete_insert_id.
Qed.

Section last_copy.
Variables (db : Db) (id : Z) (book : Book.t).
Variables (now1 user1 now2 user2 : Z).
Hypothesis Hbook : books db !! id = Some book.
Hypothesis Havail : Book.availableQuantity book = 1.
Hypothesis Hnone1 : ¬ hasActiveRecord id user1 db.
Hypothesis Hnone2 : ¬ hasActiveRecord id user2 db.

Local Abbreviation c1 := (BorrowCall.mk now1 id user1).
Local Abbreviation c2 := (BorrowCall.mk now2 id user2).
Local Abbreviation call t := (if t then c1 else c2) (only parsing).

Lemma call_finds_no_record (t : bool) :
  findWhere (activeRecord id (BorrowCall.userId (call t))) (borrowRecords db)
  = None.
Proof. destruct t; simpl; by apply findOneBorrowRecord_None. Qed.

Lemma won_lookup (t : bool) :
  books (won (call t) book db) !! id
  = Some (Book.with_availableQuantity (Book.availableQuantity book - 1) book).
Proof. destruct t; unfold won, borrowed; simpl; apply lookup_insert_eq. Qed.

(** What the turns of the race read and write. *)
Ltac race_turn :=
  let Hfind1 := fresh "Hfind1" in
  let Hfind2 := fresh "Hfind2" in
  pose proof (call_finds_no_record true) as Hfind1;
  pose proof (call_finds_no_record false) as Hfind2;
  unfold stepBorrow, rank, won, decremented, loanOf in *; simpl in *;
  rewrite ?lookup_insert_eq, ?Hbook, ?lookup_empty, ?lookup_singleton_eq,
    ?Hfind1, ?Hfind2,
    ?(saveBook_same_isbn id book
        (Book.with_availableQuantity (Book.availableQuantity book - 1) book)
        db Hbook eq_refl);
  simpl;
  rewrite ?bool_decide_eq_false_2, ?bool_decide_eq_true_2 by lia;
  rewrite ?delete_singleton_eq.

Lemma race_step cfg (s : bool) :
  race db id book c1 c2 cfg → race db id book c1 c2 (stepBorrow (call s) s cfg).
Proof.
  destruct 1 as [|t|t|t|t|t|t]; destruct s; try destruct t; race_turn.
  all: first
    [ apply race_start
    | apply (race_locked db id book c1 c2 true)
    | apply (race_locked db id book c1 c2 false)
    | apply (race_checked db id book c1 c2 true)
    | apply (race_checked db id book c1 c2 false)
    | apply (race_saved db id book c1 c2 true)
    | apply (race_saved db id book c1 c2 false)
    | apply (race_inserted db id book c1 c2 true)
    | apply (race_inserted db id book c1 c2 false)
    | apply (race_committed db id book c1 c2 true)
    | apply (race_committed db id book c1 c2 false)
    | apply (race_over db id book c1 c2 true)
    | apply (race_over db id book c1 c2 false) ].
Qed.

Lemma race_run cfg schedule :
  race db id book c1 c2 cfg →
  race db id book c1 c2 (runBorrows c1 c2 schedule cfg).
Proof.
  revert cfg. induction schedule as [|s schedule IH]; intros cfg Hrace; [done|].
  simpl. apply IH. by apply (race_step cfg s) in Hrace.
Qed.

(** No deadlock: as long as a call is in flight, one of the two can take a
    turn that brings it forward. *)
Lemma race_progress cfg :
  race db id book c1 c2 cfg →
  settled cfg ∨ ∃ s : bool, (rank (stepBorrow (call s) s cfg) < rank cfg)%nat.
Proof.
  destruct 1 as [|t|t|t|t|t|t].
  7: { left. destruct t; by eexists _, _. }
  6: right; exists (negb t).
  1: right; exists true.
  2-5: right; exists t.
  all: try destruct t; race_turn; simpl; lia.
Qed.

Lemma race_completes cfg :
  race db id book c1 c2 cfg →
  ∃ more, settled (runBorrows c1 c2 more cfg).
Proof.
  remember (rank cfg) as n eqn:Hn. revert cfg Hn.
  induction (lt_wf n) as [n _ IH]. intros cfg -> Hrace.
  destruct (race_progress cfg Hrace) as [Hdone|[s Hlt]]; [by exists []|].
  destruct (IH _ Hlt _ eq_refl (race_step cfg s Hrace)) as [more Hmore].
  exists (s :: more). simpl. by destruct s.
Qed.

(** When both calls are settled, they are where running the one that got
    the lock and then the other, each in one piece, brings them. *)
Lemma race_serial cfg :
  race db id book c1 c2 cfg → settled cfg →
  ∃ t : bool,
    let winner := borrow (BorrowCall.now (call t)) id
                    (BorrowCall.userId (call t)) db in
    let loser := borrow (BorrowCall.now (call (negb t))) id
                   (BorrowCall.userId (call (negb t))) winner.2 in
    pcOf t cfg = Settled winner.1
    ∧ pcOf (negb t) cfg = Settled loser.1
    ∧ store cfg = loser.2
    ∧ locks cfg = ∅
    ∧ winner.1 = inr (loanOf (call t) db)
    ∧ loser.1 = inl noCopies
    ∧ store cfg = won (call t) book db.
Proof.
  intros Hrace (r1 & r2 & Hr1 & Hr2).
  destruct Hrace as [|t|t|t|t|t|t]; [simpl in *; discriminate| | | | | |].
  1-5: destruct t; simpl in *; discriminate.
  exists t.
  assert (borrow (BorrowCall.now (call t)) id (BorrowCall.userId (call t)) db
          = (inr (loanOf (call t) db), won (call t) book db)) as ->.
  { rewrite borrow_eq, Hbook, bool_decide_eq_false_2 by lia.
    rewrite call_finds_no_record. by destruct t. }
  simpl.
  assert (borrow (BorrowCall.now (call (negb t))) id
            (BorrowCall.userId (call (negb t))) (won (call t) book db)
          = (inl noCopies, won (call t) book db)) as ->.
  { rewrite borrow_eq, won_lookup. simpl.
    by rewrite bool_decide_eq_true_2 by lia. }
  by destruct t.
Qed.
End last_copy.

(** Two [borrow] calls for a Title that has one copy available and no open
    Loan of either borrower. *)
Lemma last_copy_race db id book now1 user1 now2 user2 schedule :
  books db !! id = Some book →
  Book.availableQuantity book = 1 →
  ¬ hasActiveRecord id user1 db →
  ¬ hasActiveRecord id user2 db →
  let c1 := BorrowCall.mk now1 id user1 in
  let c2 := BorrowCall.mk now2 id user2 in
  let cfg := runBorrows c1 c2 schedule (initial db) in
  (∃ more, settled (runBorrows c1 c2 more cfg))
  ∧ (settled cfg →
     (cfg = firstThenSecond c1 c2 db ∨ cfg = secondThenFirst c1 c2 db)
     ∧ (∃ loan,
          (pcFirst cfg = Settled (inr loan)
           ∧ pcSecond cfg = Settled (inl noCopies))
          ∨ (pcFirst cfg = Settled (inl noCopies)
             ∧ pcSecond cfg = Settled (inr loan)))
     ∧ ∃ b, books (store cfg) !! id = Some b ∧ Book.availableQuantity b = 0).
Proof.
  intros Hbook Havail Hnone1 Hnone2 c1 c2 cfg.
  assert (race db id book c1 c2 cfg) as Hrace.
  { apply race_run; try done. apply race_start. }
  split; [by apply (race_completes db id book now1 user1 now2 user2)|].
  intros Hsettled.
  destruct (race_serial db id book now1 user1 now2 user2
              Hbook Havail Hnone1 Hnone2 cfg Hrace Hsettled)
    as (t & Hw & Hl & Hstore & Hlocks & Hwin & Hlose & Hwon).
  clearbody cfg. clear Hrace Hsettled.
  split; [|split].
  - destruct cfg as [s l p1 p2]. unfold firstThenSecond, secondThenFirst.
    destruct t; [left|right]; simpl in *; by subst.
  - rewrite Hwin in Hw. rewrite Hlose in Hl.
    destruct t; unfold pcOf in *; simpl in *; eexists; [left|right]; split;
      eassumption.
  - rewrite Hwon. eexists. unfold won, borrowed.
    destruct t; simpl; rewrite lookup_insert_eq; (split; [done|]); simpl; lia.
Qed.





(** * Part III: more of the services *)

(** ** [create] *)

Lemma isbnFree_find i db :
  isbnFree i db ↔ findWhere (hasIsbn i) (books db) = None.
Proof. rewrite findWhere_None. done. Qed.

Lemma isbnFree_other i id db :
  isbnFree i db → findWhere (isbnOfOther id i) (books db) = None.
Proof.
  intros Hfree. apply findWhere_None. intros k b Hk [_ Hi]. by apply (Hfree k b).
Qed.

(** X1.  [create] throws the Conflict "A book with this ISBN already exists."
    exactly when a Title of the store carries the ISBN of the DTO; this is
    decided before the cover image is looked at, and the store stays as it
    was. *)
Theorem create_rejects_known_isbn dto file uuid written db :
  (∃ k b, books db !! k = Some b ∧ Book.isbn b = CreateBookDto.isbn dto)
  ↔ create dto file uuid written db = (inl isbnExists, db).
Proof.
  unfold create, mbind, Tx_bind, findOneBookByIsbn, throw. split.
  - intros (k & b & Hk & Hi).
    destruct (findWhere _ _) as [?|] eqn:Hfind; [done|].
    rewrite findWhere_None in Hfind. by destruct (Hfind k b Hk).
  - destruct (findWhere _ _) as [[k b]|] eqn:Hfind.
    + intros _. apply findWhere_Some in Hfind as [Hk Hi]. by exists k, b.
    + destruct (storeCover file uuid written db) as [[e|cover] db1] eqn:Hcover.
      * unfold storeCover, throw, mret, Tx_ret in Hcover.
        destruct file as [f|]; [|done].
        repeat (case_match; try done); by simplify_eq.
      * unfold insertBook, saveBook.
        case_bool_decide; [by case_match|done].
Qed.

(** X2.  With the ISBN free, [create] checks the cover image in this order:
    an extension other than .png, .jpeg, .jpg is refused as an invalid file
    type whatever the size is; a file of an allowed type above 5 MB is
    refused as too large; a file that passes but cannot be written gives
    "Could not save the cover image.".  In all three cases no Title is
    stored. *)
Theorem create_checks_file dto f uuid written db :
  isbnFree (CreateBookDto.isbn dto) db →
  (MulterFile.extname f ∉ allowedExtensions →
   create dto (Some f) uuid written db = (inl invalidFileType, db))
  ∧ (MulterFile.extname f ∈ allowedExtensions →
     maxFileSize < MulterFile.size f →
     create dto (Some f) uuid written db = (inl fileTooLarge, db))
  ∧ (MulterFile.extname f ∈ allowedExtensions →
     MulterFile.size f ≤ maxFileSize → written = false →
     create dto (Some f) uuid written db = (inl couldNotSave, db)).
Proof.
  intros Hfree%isbnFree_find.
  unfold create, mbind, Tx_bind, findOneBookByIsbn, throw. rewrite Hfree.
  unfold storeCover, throw. split; [|split].
  - intros Hext. by rewrite bool_decide_eq_false_2.
  - intros Hext Hsize. rewrite bool_decide_eq_true_2 by done. simpl.
    by rewrite bool_decide_eq_true_2.
  - intros Hext Hsize ->. rewrite bool_decide_eq_true_2 by done. simpl.
    by rewrite bool_decide_eq_false_2 by lia.
Qed.

Lemma create_checks_file_witness :
  isbnFree (CreateBookDto.isbn tolkien) libraryDb
  ∧ create tolkien (Some (MulterFile.mk ".gif" 100)) "u" true libraryDb
    = (inl invalidFileType, libraryDb)
  ∧ create tolkien (Some (MulterFile.mk ".jpg" 5242881)) "u" true libraryDb
    = (inl fileTooLarge, libraryDb)
  ∧ create tolkien (Some (MulterFile.mk ".jpg" 5242880)) "u" false libraryDb
    = (inl couldNotSave, libraryDb).
Proof.
  assert (isbnFree (CreateBookDto.isbn tolkien) libraryDb) as Hfree.
  { apply isbnFree_find. vm_compute. reflexivity. }
  split; [exact Hfree|].
  split; [|split].
  - apply (proj1 (create_checks_file tolkien (MulterFile.mk ".gif" 100) "u"
                    true libraryDb Hfree)).
    unfold allowedExtensions. simpl. intros Hin.
    repeat (apply elem_of_cons in Hin as [Hin|Hin]; [discriminate|]).
    by apply elem_of_nil in Hin.
  - apply (proj1 (proj2 (create_checks_file tolkien
                           (MulterFile.mk ".jpg" 5242881) "u" true libraryDb
                           Hfree))).
    + apply (bool_decide_unpack _). vm_compute. exact I.
    + vm_compute. reflexivity.
  - apply (proj2 (proj2 (create_checks_file tolkien
                           (MulterFile.mk ".jpg" 5242880) "u" false libraryDb
                           Hfree))).
    + apply (bool_decide_unpack _). vm_compute. exact I.
    + vm_compute. discriminate.
    + reflexivity.
Defined.

(** X3.  With the ISBN free and the cover image, if there is one, accepted
    and written: when the year and the quantity of the DTO fit an integer
    column (32 bits), [create] stores one new Title under an id no Title
    had, with the fields of the DTO, all copies available, and as cover the
    path /storage/covers/<uuid><extension>, or none without a file; the
    Titles that were there and the Loans stay as they were.  When the
    quantity does not fit and is below 10^21 in absolute value, the store
    refuses the row and nothing is stored. *)
Theorem create_inserts dto file uuid written db :
  isbnFree (CreateBookDto.isbn dto) db →
  fileAccepted file written →
  inInteger (CreateBookDto.publicationYear dto) →
  (inInteger (CreateBookDto.quantity dto) →
   ∃ id,
     let book :=
       Book.mk (CreateBookDto.title dto) (CreateBookDto.author dto)
         (CreateBookDto.isbn dto) (CreateBookDto.publicationYear dto)
         (CreateBookDto.quantity dto) (CreateBookDto.quantity dto)
         ((λ f, "/storage/covers/" +:+ uuid +:+ MulterFile.extname f)
            <$> file) in
     books db !! id = None
     ∧ create dto file uuid written db
       = (inr (id, book), {| books := <[id := book]> (books db);
                             borrowRecords := borrowRecords db |}))
  ∧ (¬ inInteger (CreateBookDto.quantity dto) →
     Z.abs (CreateBookDto.quantity dto) < 10 ^ 21 →
     create dto file uuid written db = (inl integerOutOfRange, db)).
Proof.
  intros Hfree Hfile Hyear.
  pose proof (isbnFree_other _ (nextId (books db)) _ Hfree) as Hother.
  apply isbnFree_find in Hfree.
  assert (storeCover file uuid written db
          = (inr ((λ f, "/storage/covers/" +:+ uuid +:+ MulterFile.extname f)
                    <$> file), db)) as Hcover.
  { unfold storeCover. destruct file as [f|]; [|done].
    destruct Hfile as (Hext & Hsize & ->).
    rewrite bool_decide_eq_true_2 by done. simpl.
    by rewrite bool_decide_eq_false_2 by lia. }
  assert (parseInt10 (CreateBookDto.publicationYear dto)
          = CreateBookDto.publicationYear dto) as Hy
    by (apply parseInt10_small; unfold inInteger in Hyear; lia).
  split.
  - intros Hq. exists (nextId (books db)).
    split; [apply nextId_fresh|].
    unfold create, mbind, Tx_bind, findOneBookByIsbn, throw.
    rewrite Hfree, Hcover, Hy.
    rewrite (parseInt10_small (CreateBookDto.quantity dto))
      by (unfold inInteger in Hq; lia).
    unfold insertBook, saveBook. simpl.
    rewrite bool_decide_eq_true_2 by done. rewrite Hother.
    rewrite (bool_decide_eq_false_2 (is_Some None)) by (by intros [? ?]).
    by rewrite andb_false_r.
  - intros Hq Hsmall.
    unfold create, mbind, Tx_bind, findOneBookByIsbn, throw.
    rewrite Hfree, Hcover, Hy, (parseInt10_small _ Hsmall).
    unfold insertBook. simpl.
    by rewrite bool_decide_eq_false_2 by (by intros (_ & ? & _)).
Qed.

Lemma create_inserts_witness :
  isbnFree (CreateBookDto.isbn tolkien) libraryDb
  ∧ fileAccepted (Some (MulterFile.mk ".png" 100)) true
  ∧ inInteger (CreateBookDto.publicationYear tolkien)
  ∧ inInteger (CreateBookDto.quantity tolkien)
  ∧ (∃ id,
       books libraryDb !! id = None
       ∧ (create tolkien (Some (MulterFile.mk ".png" 100)) "mock-uuid-1234"
            true libraryDb).1
         = inr (id, Book.mk "The Lord of the Rings" "J.R.R. Tolkien"
                      "978-0-618-64015-7" 1954 2 2
                      (Some "/storage/covers/mock-uuid-1234.png")))
  ∧ ¬ inInteger (CreateBookDto.quantity tolkienTooMany)
  ∧ Z.abs (CreateBookDto.quantity tolkienTooMany) < 10 ^ 21
  ∧ create tolkienTooMany (Some (MulterFile.mk ".png" 100)) "mock-uuid-1234"
      true libraryDb
    = (inl integerOutOfRange, libraryDb).
Proof.
  assert (isbnFree (CreateBookDto.isbn tolkien) libraryDb) as Hfree.
  { apply isbnFree_find. vm_compute. reflexivity. }
  assert (fileAccepted (Some (MulterFile.mk ".png" 100)) true) as Hfile.
  { split; [|split; [|reflexivity]].
    - apply (bool_decide_unpack _). vm_compute. exact I.
    - vm_compute. discriminate. }
  assert (inInteger 1954) as Hyear by (unfold inInteger; lia).
  assert (inInteger 2) as Hq by (unfold inInteger; lia).
  assert (¬ inInteger (2 ^ 31)) as Hmany by (unfold inInteger; lia).
  split; [exact Hfree|]. split; [exact Hfile|]. split; [exact Hyear|].
  split; [exact Hq|]. split.
  - destruct (proj1 (create_inserts tolkien (Some (MulterFile.mk ".png" 100))
                       "mock-uuid-1234" true libraryDb Hfree Hfile Hyear) Hq)
      as (id & Hid & Heq).
    exists id. split; [exact Hid|]. by rewrite Heq.
  - split; [exact Hmany|]. split; [simpl; lia|].
    apply (proj2 (create_inserts tolkienTooMany
                    (Some (MulterFile.mk ".png" 100)) "mock-uuid-1234" true
                    libraryDb Hfree Hfile Hyear) Hmany).
    simpl. lia.
Defined.

(** ** [update] *)

Lemma saveBook_inv id b db r db' :
  saveBook id b db = (inr r, db') →
  r = (id, b)
  ∧ db' = {| books := <[id := b]> (books db);
             borrowRecords := borrowRecords db |}
  ∧ (Book.isbn <$> books db !! id = Some (Book.isbn b)
     ∨ ∀ k b0, books db !! k = Some b0 → k ≠ id → Book.isbn b0 ≠ Book.isbn b).
Proof.
  unfold saveBook.
  case_bool_decide as Hchanged; simpl.
  - case_bool_decide as Htaken; [done|]. intros; simplify_eq.
    split; [done|]. split; [done|]. right. intros k b0 Hk Hne Hi.
    apply Htaken.
    destruct (findWhere (isbnOfOther id (Book.isbn b)) (books db)) eqn:Hfind;
      [eauto|].
    rewrite findWhere_None in Hfind. by destruct (Hfind k b0 Hk).
  - intros; simplify_eq. split; [done|]. split; [done|]. left.
    destruct (decide (Book.isbn <$> books db !! id = Some (Book.isbn b)));
      [done|by destruct Hchanged].
Qed.

(** X4.  [update] of a Title that does not exist throws NotFound and leaves
    the store as it was.  A committed [update], whatever fields its DTO
    carries, writes that one Title and nothing else, keeps its cover, and
    leaves the number of copies that are out, quantity - availableQuantity,
    as it was. *)
Theorem update_keeps_outstanding id dto db :
  (books db !! id = None → update id dto db = (inl (bookNotFound id), db))
  ∧ (∀ r db', update id dto db = (inr r, db') →
       ∃ book book',
         books db !! id = Some book
         ∧ r = (id, book')
         ∧ db' = {| books := <[id := book']> (books db);
                    borrowRecords := borrowRecords db |}
         ∧ Book.quantity book' - Book.availableQuantity book'
           = Book.quantity book - Book.availableQuantity book
         ∧ Book.quantity book'
           = default (Book.quantity book) (UpdateBookDto.quantity dto)
         ∧ Book.coverImage book' = Book.coverImage book).
Proof.
  split.
  - intros Hnone.
    unfold update, findOne, mbind, Tx_bind, findOneBook, throw. by rewrite Hnone.
  - unfold update, findOne, mbind, Tx_bind, findOneBook, throw, mret, Tx_ret.
    intros r db'.
    destruct (books db !! id) as [book|] eqn:Hbook; [|done].
    destruct (UpdateBookDto.quantity dto) as [q|] eqn:Hq.
    + case_bool_decide as Hlt; [done|].
      intros (-> & -> & _)%saveBook_inv.
      eexists _, _. repeat split; simpl; rewrite ?Hq; simpl; lia.
    + intros (-> & -> & _)%saveBook_inv.
      eexists _, _. repeat split; simpl; rewrite ?Hq; simpl; lia.
Qed.

Lemma update_keeps_outstanding_witness :
  update 9 (UpdateBookDto.only_quantity 3) libraryDb
  = (inl (bookNotFound 9), libraryDb)
  ∧ ∃ book',
      (update 1 (UpdateBookDto.mk (Some "Renamed") None None None (Some 9))
         libraryDb).1 = inr (1, book')
      ∧ Book.quantity book' - Book.availableQuantity book' = 5 - 4.
Proof.
  split.
  - apply (proj1 (update_keeps_outstanding 9 (UpdateBookDto.only_quantity 3)
                    libraryDb)). reflexivity.
  - destruct (update 1 (UpdateBookDto.mk (Some "Renamed") None None None (Some 9))
                libraryDb) as [[e|r] db'] eqn:Hrun; [by vm_compute in Hrun|].
    destruct (proj2 (update_keeps_outstanding 1 _ libraryDb) r db' Hrun)
      as (book & book' & Hbook & -> & _ & Hout & _).
    exists book'. split; [done|].
    vm_compute in Hbook. injection Hbook as <-. exact Hout.
Defined.

(** ** Invariants of the four operations *)

Lemma commits_inv op db db' :
  commits op db db' →
  (borrowRecords db' = borrowRecords db
   ∧ ∃ id b, books db' = <[id := b]> (books db)
             ∧ (Book.isbn <$> books db !! id = Some (Book.isbn b)
                ∨ ∀ k b0, books db !! k = Some b0 → k ≠ id →
                          Book.isbn b0 ≠ Book.isbn b))
  ∨ (∃ now bookId userId book,
       op = Borrow now bookId userId
       ∧ books db !! bookId = Some book
       ∧ ¬ hasActiveRecord bookId userId db
       ∧ db' = borrowed now bookId userId book db)
  ∨ (∃ now bookId userId book k r,
       op = Return now bookId userId
       ∧ books db !! bookId = Some book
       ∧ borrowRecords db !! k = Some r
       ∧ activeRecord bookId userId (k, r)
       ∧ db' = returned now bookId k book r db).
Proof.
  destruct op as [dto file uuid written|id dto|now bookId userId|now bookId userId];
    intros [r Hrun]; simpl in *.
  - left. destruct r as [id book].
    apply create_inv in Hrun as (Hfree & -> & _ & _ & Hi & ->). simpl.
    split; [done|]. eexists _, _. split; [done|]. right.
    intros k b0 Hk _. rewrite Hi.
    rewrite findWhere_None in Hfree. by apply (Hfree k b0).
  - left. revert Hrun.
    unfold update, findOne, mbind, Tx_bind, findOneBook, throw, mret, Tx_ret.
    destruct (books db !! id) as [book|] eqn:Hbook; [|done].
    destruct (UpdateBookDto.quantity dto) as [q|].
    + case_bool_decide; [done|].
      intros (_ & -> & Hi)%saveBook_inv. simpl. split; [done|].
      eexists _, _. split; [done|]. by rewrite Hbook in *.
    + intros (_ & -> & Hi)%saveBook_inv. simpl. split; [done|].
      eexists _, _. split; [done|]. by rewrite Hbook in *.
  - right; left.
    apply borrow_inv in Hrun as (book & Hbook & _ & Hnone & _ & ->).
    by exists now, bookId, userId, book.
  - right; right.
    apply return_inv in Hrun as (book & k & rec & Hbook & Hk & Hact & _ & _ & ->).
    by exists now, bookId, userId, book, k, rec.
Qed.

(** X5.  If no two Titles carry the same ISBN, none do after a committed
    [create], [update], [borrow] or [return]. *)
Theorem isbn_stays_unique op db db' :
  commits op db db' → isbnUnique db → isbnUnique db'.
Proof.
  intros Hop Huniq.
  assert (∀ id b,
            (Book.isbn <$> books db !! id = Some (Book.isbn b)
             ∨ ∀ k b0, books db !! k = Some b0 → k ≠ id →
                       Book.isbn b0 ≠ Book.isbn b) →
            ∀ k1 b1 k2 b2,
              <[id := b]> (books db) !! k1 = Some b1 →
              <[id := b]> (books db) !! k2 = Some b2 →
              Book.isbn b1 = Book.isbn b2 → k1 = k2) as Hins.
  { intros id b Hi k1 b1 k2 b2 H1 H2 Heq.
    assert (∀ k b0, books db !! k = Some b0 → k ≠ id →
                    Book.isbn b0 ≠ Book.isbn b) as Hother.
    { destruct Hi as [Hsame|Hother]; [|done].
      intros k b0 Hk Hne Hi.
      destruct (books db !! id) as [old|] eqn:Hold; [|done].
      simpl in Hsame. injection Hsame as Hsame.
      apply Hne. apply (Huniq k b0 id old); congruence. }
    apply lookup_insert_Some in H1 as [[<- <-]|[Hne1 H1]];
      apply lookup_insert_Some in H2 as [[<- <-]|[Hne2 H2]]; try done.
    - by destruct (Hother k2 b2 H2).
    - by destruct (Hother k1 b1 H1).
    - by apply (Huniq k1 b1 k2 b2). }
  destruct (commits_inv op db db' Hop)
    as [[_ (id & b & Hb & Hi)]
       |[(now & bookId & userId & book & _ & Hbook & _ & ->)
        |(now & bookId & userId & book & k & r & _ & Hbook & _ & _ & ->)]].
  - intros k1 b1 k2 b2. rewrite Hb. by apply Hins.
  - intros k1 b1 k2 b2. unfold borrowed; simpl. apply Hins. left.
    by rewrite Hbook.
  - intros k1 b1 k2 b2. unfold returned; simpl. apply Hins. left.
    by rewrite Hbook.
Qed.

Lemma libraryDb_borrow_8 :
  commits (Borrow 20 1 8) libraryDb
    {| books := {[ 1 := sampleBook 5 3; 2 := sampleBook 1 0 ]};
       borrowRecords := <[4 := BorrowRecord.mk 20 (Some 20) 8 1]>
                          (borrowRecords libraryDb) |}.
Proof. eexists. vm_compute. reflexivity. Defined.

Lemma catalogueDb_isbnUnique : isbnUnique catalogueDb.
Proof.
  intros k1 b1 k2 b2 H1 H2 Heq. simpl in *.
  apply lookup_insert_Some in H1 as [[<- <-]|[? H1]];
    [|apply lookup_singleton_Some in H1 as [<- <-]];
    (apply lookup_insert_Some in H2 as [[<- <-]|[? H2]];
       [|apply lookup_singleton_Some in H2 as [<- <-]]);
    first [done|discriminate].
Qed.

Lemma isbn_stays_unique_witness :
  commits (Update 2 (UpdateBookDto.mk None None (Some "978-0-441-17271-9")
                       None None))
    catalogueDb
    {| books := {[ 1 := Book.mk "The Lord of the Rings" "J.R.R. Tolkien"
                          "978-0-618-64015-7" 1954 3 3 None;
                   2 := Book.mk "Dune" "Frank Herbert" "978-0-441-17271-9"
                          1965 6 6 None ]};
       borrowRecords := ∅ |}
  ∧ isbnUnique catalogueDb
  ∧ isbnUnique
      {| books := {[ 1 := Book.mk "The Lord of the Rings" "J.R.R. Tolkien"
                            "978-0-618-64015-7" 1954 3 3 None;
                     2 := Book.mk "Dune" "Frank Herbert" "978-0-441-17271-9"
                            1965 6 6 None ]};
         borrowRecords := ∅ |}
  ∧ update 2 (UpdateBookDto.mk None None (Some "978-0-618-64015-7") None None)
      catalogueDb
    = (inl uniqueViolation, catalogueDb).
Proof.
  assert (commits (Update 2 (UpdateBookDto.mk None None
                               (Some "978-0-441-17271-9") None None))
            catalogueDb
            {| books := {[ 1 := Book.mk "The Lord of the Rings"
                                  "J.R.R. Tolkien" "978-0-618-64015-7"
                                  1954 3 3 None;
                           2 := Book.mk "Dune" "Frank Herbert"
                                  "978-0-441-17271-9" 1965 6 6 None ]};
               borrowRecords := ∅ |}) as Hop
    by (eexists; vm_compute; reflexivity).
  split; [exact Hop|]. split; [exact catalogueDb_isbnUnique|].
  split; [|vm_compute; reflexivity].
  exact (isbn_stays_unique _ _ _ Hop catalogueDb_isbnUnique).
Defined.

(** X6.  If no borrower holds two open Loans on one Title, none does after
    a committed [create], [update], [borrow] or [return]. *)
Theorem one_open_loan_per_pair op db db' :
  commits op db db' → oneOpenLoanPerPair db → oneOpenLoanPerPair db'.
Proof.
  intros Hop Hone.
  destruct (commits_inv op db db' Hop)
    as [[Hrec _]
       |[(now & bookId & userId & book & _ & _ & Hnone & ->)
        |(now & bookId & userId & book & k & r & _ & _ & Hk & Hact & ->)]].
  - intros b u k1 r1 k2 r2. rewrite Hrec. apply Hone.
  - intros b u k1 r1 k2 r2. unfold borrowed; simpl. intros H1 H2 A1 A2.
    apply lookup_insert_Some in H1 as [[<- <-]|[Hne1 H1]];
      apply lookup_insert_Some in H2 as [[<- <-]|[Hne2 H2]]; try done.
    + destruct A1 as (<- & <- & _). destruct Hnone. by exists k2, r2.
    + destruct A2 as (<- & <- & _). destruct Hnone. by exists k1, r1.
    + by apply (Hone b u k1 r1 k2 r2).
  - intros b u k1 r1 k2 r2. unfold returned; simpl. intros H1 H2 A1 A2.
    apply lookup_insert_Some in H1 as [[<- <-]|[Hne1 H1]];
      [by destruct A1 as (_ & _ & ?)|].
    apply lookup_insert_Some in H2 as [[<- <-]|[Hne2 H2]];
      [by destruct A2 as (_ & _ & ?)|].
    by apply (Hone b u k1 r1 k2 r2).
Qed.

Lemma libraryDb_one_open_loan : oneOpenLoanPerPair libraryDb.
Proof.
  intros b u k1 r1 k2 r2 H1 H2 (B1 & U1 & O1) (B2 & U2 & O2). simpl in *.
  repeat (apply lookup_insert_Some in H1 as [[<- <-]|[? H1]]);
    try apply lookup_singleton_Some in H1 as [<- <-];
    repeat (apply lookup_insert_Some in H2 as [[<- <-]|[? H2]]);
    try apply lookup_singleton_Some in H2 as [<- <-];
    simpl in *; congruence.
Defined.

Lemma one_open_loan_per_pair_witness :
  commits (Borrow 20 1 8) libraryDb
    {| books := {[ 1 := sampleBook 5 3; 2 := sampleBook 1 0 ]};
       borrowRecords := <[4 := BorrowRecord.mk 20 (Some 20) 8 1]>
                          (borrowRecords libraryDb) |}
  ∧ oneOpenLoanPerPair libraryDb
  ∧ oneOpenLoanPerPair
      {| books := {[ 1 := sampleBook 5 3; 2 := sampleBook 1 0 ]};
         borrowRecords := <[4 := BorrowRecord.mk 20 (Some 20) 8 1]>
                            (borrowRecords libraryDb) |}.
Proof.
  split; [exact libraryDb_borrow_8|]. split; [exact libraryDb_one_open_loan|].
  exact (one_open_loan_per_pair _ _ _ libraryDb_borrow_8 libraryDb_one_open_loan).
Defined.

(** X7.  The Loans are a ledger: a committed [create], [update], [borrow] or
    [return] removes no Loan and changes neither the borrower, the Title nor
    the borrowing date of a Loan; a Loan that is closed stays as it is, and
    the only change a Loan can see is to be closed by a [return].  No Title
    is removed either. *)
Theorem loans_are_a_ledger op db db' k r :
  commits op db db' →
  borrowRecords db !! k = Some r →
  (∀ id, is_Some (books db !! id) → is_Some (books db' !! id))
  ∧ ∃ r',
      borrowRecords db' !! k = Some r'
      ∧ BorrowRecord.borrowedAt r' = BorrowRecord.borrowedAt r
      ∧ BorrowRecord.user r' = BorrowRecord.user r
      ∧ BorrowRecord.book r' = BorrowRecord.book r
      ∧ (r' = r
         ∨ BorrowRecord.returnedAt r = None
           ∧ ∃ now, op = Return now (BorrowRecord.book r) (BorrowRecord.user r)
                    ∧ BorrowRecord.returnedAt r' = Some now).
Proof.
  intros Hop Hk.
  assert (∀ id b (m : gmap Z Book.t) i,
            is_Some (m !! i) → is_Some (<[id := b]> m !! i)) as Hkeep.
  { intros id b m i Hi. destruct (decide (id = i)) as [->|Hne].
    - rewrite lookup_insert_eq. eauto.
    - by rewrite lookup_insert_ne. }
  destruct (commits_inv op db db' Hop)
    as [[Hrec (id & b & Hb & _)]
       |[(now & bookId & userId & book & _ & _ & _ & ->)
        |(now & bookId & userId & book & k0 & r0 & -> & _ & Hk0 & Hact & ->)]].
  - split; [rewrite Hb; intros i; apply Hkeep|].
    exists r. rewrite Hrec. eauto 10.
  - split; [intros i; apply Hkeep|].
    exists r. unfold borrowed; simpl.
    rewrite lookup_insert_ne; [eauto 10|].
    intros Heq. rewrite <-Heq, nextId_fresh in Hk. done.
  - split; [intros i; apply Hkeep|].
    unfold returned; simpl. destruct (decide (k0 = k)) as [->|Hne].
    + rewrite lookup_insert_eq. simplify_eq.
      destruct Hact as (<- & <- & Hopen); simpl in *.
      eexists. split; [done|]. repeat split. right. eauto.
    + exists r. rewrite lookup_insert_ne by done. eauto 10.
Qed.

Lemma loans_are_a_ledger_witness :
  commits (Return 20 1 7) libraryDb
    {| books := {[ 1 := sampleBook 5 5; 2 := sampleBook 1 0 ]};
       borrowRecords := {[ 1 := BorrowRecord.mk 10 (Some 20) 7 1;
                           2 := BorrowRecord.mk 11 (Some 12) 8 1;
                           3 := BorrowRecord.mk 13 None 7 2 ]} |}
  ∧ borrowRecords libraryDb !! 2 = Some (BorrowRecord.mk 11 (Some 12) 8 1)
  ∧ ∃ r',
      ({[ 1 := BorrowRecord.mk 10 (Some 20) 7 1;
          2 := BorrowRecord.mk 11 (Some 12) 8 1;
          3 := BorrowRecord.mk 13 None 7 2 ]} : gmap Z BorrowRecord.t) !! 2
      = Some r'
      ∧ BorrowRecord.borrowedAt r' = 11.
Proof.
  assert (commits (Return 20 1 7) libraryDb
            {| books := {[ 1 := sampleBook 5 5; 2 := sampleBook 1 0 ]};
               borrowRecords := {[ 1 := BorrowRecord.mk 10 (Some 20) 7 1;
                                   2 := BorrowRecord.mk 11 (Some 12) 8 1;
                                   3 := BorrowRecord.mk 13 None 7 2 ]} |})
    as Hop by (eexists; vm_compute; reflexivity).
  split; [exact Hop|]. split; [reflexivity|].
  destruct (loans_are_a_ledger _ _ _ 2 _ Hop eq_refl)
    as (_ & r' & Hr' & Hat & _).
  exists r'. split; [exact Hr'|exact Hat].
Defined.

(** ** What the invariant rules out *)

Lemma openLoans_positive bookId db k r :
  borrowRecords db !! k = Some r → openLoan bookId (k, r) →
  (1 ≤ openLoans bookId db)%nat.
Proof.
  intros Hk Hopen. unfold openLoans.
  assert (size (filter (openLoan bookId) (borrowRecords db)) ≠ 0%nat);
    [|lia].
  apply map_size_non_empty_iff. intros Hempty.
  assert (filter (openLoan bookId) (borrowRecords db) !! k = Some r) as Hin
    by (by apply map_lookup_filter_Some).
  by rewrite Hempty, lookup_empty in Hin.
Qed.

(** X8.  In a store that satisfies the core invariant, [return] never
    reports a data inconsistency: whenever it finds the open Loan, a copy is
    out, and it goes through. *)
Theorem return_never_inconsistent now bookId userId db :
  coreInvariant db →
  (return_ now bookId userId db).1 ≠ inl dataInconsistency
  ∧ (∀ book, books db !! bookId = Some book →
       hasActiveRecord bookId userId db →
       ∃ r, (return_ now bookId userId db).1 = inr r).
Proof.
  intros Hinv.
  assert (∀ book k r,
            books db !! bookId = Some book →
            findWhere (activeRecord bookId userId) (borrowRecords db)
            = Some (k, r) →
            Book.availableQuantity book < Book.quantity book) as Hout.
  { intros book k r Hbook [Hk (Hb & _ & Hopen)]%findWhere_Some.
    destruct (Hinv _ _ Hbook) as [_ Hcount].
    pose proof (openLoans_positive bookId db k r Hk (conj Hb Hopen)). lia. }
  split.
  - rewrite return_eq.
    destruct (books db !! bookId) as [book|] eqn:Hbook; [|done].
    destruct (findWhere _ _) as [[k r]|] eqn:Hfind; [|done].
    specialize (Hout book k r eq_refl eq_refl).
    by rewrite bool_decide_eq_false_2 by lia.
  - intros book Hbook Hopen. rewrite return_eq, Hbook.
    destruct (findOneBorrowRecord_Some _ _ _ Hopen) as (k & r & Hfind & _).
    rewrite Hfind. specialize (Hout book k r Hbook Hfind).
    rewrite bool_decide_eq_false_2 by lia. eauto.
Qed.

Lemma return_never_inconsistent_witness :
  coreInvariant tolkienDb
  ∧ (return_ 40 1 8 tolkienDb).1 ≠ inl dataInconsistency.
Proof.
  split; [exact tolkienDb_consistent|].
  apply (return_never_inconsistent 40 1 8 tolkienDb tolkienDb_consistent).
Defined.

(** ** How [borrow] and [return] follow each other *)

Lemma no_active_after_return now bookId userId db k r :
  oneOpenLoanPerPair db →
  borrowRecords db !! k = Some r → activeRecord bookId userId (k, r) →
  findWhere (activeRecord bookId userId)
    (<[k := BorrowRecord.with_returnedAt (Some now) r]> (borrowRecords db))
  = None.
Proof.
  intros Hone Hk Hact. apply findWhere_None. intros k' r' Hk' Hact'.
  apply lookup_insert_Some in Hk' as [[<- <-]|[Hne Hk']].
  - by destruct Hact' as (_ & _ & ?).
  - apply Hne. by apply (Hone bookId userId k r k' r').
Qed.

Lemma no_active_after_borrow now bookId userId db k :
  ¬ hasActiveRecord bookId userId db →
  findWhere (activeRecord bookId userId)
    (<[k := BorrowRecord.mk now (Some now) userId bookId]> (borrowRecords db))
  = None.
Proof.
  intros Hnone. apply findWhere_None. intros k' r' Hk' Hact'.
  apply lookup_insert_Some in Hk' as [[_ <-]|[_ Hk']].
  - by destruct Hact' as (_ & _ & ?).
  - apply Hnone. by exists k', r'.
Qed.

(** X9.  After a committed [borrow], a second [borrow] of the same Title by
    the same borrower is refused only when the first one took the last copy,
    with "No copies of this book are available.".  Otherwise it goes through
    again: the Loan of the first call is stored with [returnedAt] set, so
    the check for a Loan the borrower holds does not find it, the Conflict
    is not raised, one more copy is taken and one more Loan is stored. *)
Theorem borrow_twice now1 now2 bookId userId db book r db1 :
  borrow now1 bookId userId db = (inr r, db1) →
  books db !! bookId = Some book →
  (Book.availableQuantity book ≤ 1 →
   borrow now2 bookId userId db1 = (inl noCopies, db1))
  ∧ (1 < Book.availableQuantity book →
     ∃ loanId,
       let loan := BorrowRecord.mk now2 (Some now2) userId bookId in
       let book2 :=
         Book.mk (Book.title book) (Book.author book) (Book.isbn book)
           (Book.publicationYear book) (Book.quantity book)
           (Book.availableQuantity book - 2) (Book.coverImage book) in
       borrowRecords db1 !! loanId = None
       ∧ borrow now2 bookId userId db1
         = (inr (loanId, loan),
            {| books := <[bookId := book2]> (books db);
               borrowRecords := <[loanId := loan]> (borrowRecords db1) |})).
Proof.
  intros (book' & Hbook' & _ & Hnone & _ & ->)%borrow_inv Hbook.
  simplify_eq. split.
  - intros Hlast. rewrite borrow_eq. unfold borrowed; simpl.
    rewrite lookup_insert_eq. simpl.
    by rewrite bool_decide_eq_true_2 by lia.
  - intros Hmore.
    exists (nextId (borrowRecords (borrowed now1 bookId userId book' db))).
    split; [apply nextId_fresh|].
    rewrite borrow_eq. unfold borrowed at 1 2; simpl.
    rewrite lookup_insert_eq. simpl.
    rewrite bool_decide_eq_false_2 by lia.
    rewrite (no_active_after_borrow now1 bookId userId db _ Hnone).
    unfold borrowed; simpl. rewrite insert_insert_eq.
    do 3 f_equal. unfold Book.with_availableQuantity; simpl. f_equal. lia.
Qed.

Lemma borrow_twice_witness :
  borrow 20 1 8 libraryDb
  = (inr (4, BorrowRecord.mk 20 (Some 20) 8 1),
     {| books := {[ 1 := sampleBook 5 3; 2 := sampleBook 1 0 ]};
        borrowRecords := <[4 := BorrowRecord.mk 20 (Some 20) 8 1]>
                           (borrowRecords libraryDb) |})
  ∧ books libraryDb !! 1 = Some (sampleBook 5 4)
  ∧ 1 < Book.availableQuantity (sampleBook 5 4)
  ∧ (∃ loanId,
       (borrow 21 1 8
          {| books := {[ 1 := sampleBook 5 3; 2 := sampleBook 1 0 ]};
             borrowRecords := <[4 := BorrowRecord.mk 20 (Some 20) 8 1]>
                                (borrowRecords libraryDb) |}).1
       = inr (loanId, BorrowRecord.mk 21 (Some 21) 8 1))
  ∧ borrow 20 1 7 (sampleDb 1 1)
    = (inr (1, BorrowRecord.mk 20 (Some 20) 7 1),
       {| books := {[ 1 := sampleBook 1 0 ]};
          borrowRecords := {[ 1 := BorrowRecord.mk 20 (Some 20) 7 1 ]} |})
  ∧ books (sampleDb 1 1) !! 1 = Some (sampleBook 1 1)
  ∧ Book.availableQuantity (sampleBook 1 1) ≤ 1
  ∧ borrow 21 1 7
      {| books := {[ 1 := sampleBook 1 0 ]};
         borrowRecords := {[ 1 := BorrowRecord.mk 20 (Some 20) 7 1 ]} |}
    = (inl noCopies,
       {| books := {[ 1 := sampleBook 1 0 ]};
          borrowRecords := {[ 1 := BorrowRecord.mk 20 (Some 20) 7 1 ]} |}).
Proof.
  assert (borrow 20 1 8 libraryDb
          = (inr (4, BorrowRecord.mk 20 (Some 20) 8 1),
             {| books := {[ 1 := sampleBook 5 3; 2 := sampleBook 1 0 ]};
                borrowRecords := <[4 := BorrowRecord.mk 20 (Some 20) 8 1]>
                                   (borrowRecords libraryDb) |})) as Hrun
    by (vm_compute; reflexivity).
  assert (borrow 20 1 7 (sampleDb 1 1)
          = (inr (1, BorrowRecord.mk 20 (Some 20) 7 1),
             {| books := {[ 1 := sampleBook 1 0 ]};
                borrowRecords :=
                  {[ 1 := BorrowRecord.mk 20 (Some 20) 7 1 ]} |})) as Hlast
    by (vm_compute; reflexivity).
  assert (1 < Book.availableQuantity (sampleBook 5 4)) as Hmore
    by (simpl; lia).
  assert (Book.availableQuantity (sampleBook 1 1) ≤ 1) as Hone
    by (simpl; lia).
  split; [exact Hrun|]. split; [reflexivity|]. split; [exact Hmore|].
  split.
  { destruct (proj2 (borrow_twice 20 21 1 8 libraryDb (sampleBook 5 4) _ _
                       Hrun eq_refl) Hmore) as (loanId & _ & Heq).
    exists loanId. by rewrite Heq. }
  split; [exact Hlast|]. split; [reflexivity|]. split; [exact Hone|].
  exact (proj1 (borrow_twice 20 21 1 7 (sampleDb 1 1) (sampleBook 1 1) _ _
                  Hlast eq_refl) Hone).
Defined.

(** X10.  In a store where no borrower holds two open Loans on one Title,
    after a committed [return] a second [return] of the same Title by the
    same borrower is refused with NotFound "No active borrow record..." and
    changes nothing: the count cannot be raised twice for one Loan. *)
Theorem return_twice now1 now2 bookId userId db r db1 :
  oneOpenLoanPerPair db →
  return_ now1 bookId userId db = (inr r, db1) →
  return_ now2 bookId userId db1 = (inl noActiveRecord, db1).
Proof.
  intros Hone (book & k & rec & Hbook & Hk & Hact & _ & _ & ->)%return_inv.
  rewrite return_eq. unfold returned; simpl. rewrite lookup_insert_eq.
  by rewrite (no_active_after_return now1 bookId userId db k rec Hone Hk Hact).
Qed.

Lemma return_twice_witness :
  oneOpenLoanPerPair libraryDb
  ∧ ∃ r db1,
      return_ 20 1 7 libraryDb = (inr r, db1)
      ∧ return_ 21 1 7 db1 = (inl noActiveRecord, db1).
Proof.
  split; [exact libraryDb_one_open_loan|].
  destruct (return_ 20 1 7 libraryDb) as [[e|r] db1] eqn:Hrun;
    [by vm_compute in Hrun|].
  exists r, db1. split; [reflexivity|].
  exact (return_twice 20 21 1 7 libraryDb r db1 libraryDb_one_open_loan Hrun).
Defined.

(** X11.  In a store where no borrower holds two open Loans on one Title,
    when a [return] has been committed on a Title whose count was not
    negative, the same borrower can borrow the Title again at once: the
    [borrow] succeeds, stores a new Loan beside the one that was closed,
    with the time of the insert in both of its dates, and the table of
    Titles is back to what it was before the return. *)
Theorem return_then_borrow now1 now2 bookId userId db book r db1 :
  oneOpenLoanPerPair db →
  return_ now1 bookId userId db = (inr r, db1) →
  books db !! bookId = Some book →
  0 ≤ Book.availableQuantity book →
  ∃ loanId,
    let loan := BorrowRecord.mk now2 (Some now2) userId bookId in
    borrowRecords db1 !! loanId = None
    ∧ borrow now2 bookId userId db1
      = (inr (loanId, loan),
         {| books := books db;
            borrowRecords := <[loanId := loan]> (borrowRecords db1) |}).
Proof.
  intros Hone (book' & k & rec & Hbook' & Hk & Hact & _ & _ & ->)%return_inv
    Hbook Hge.
  rewrite Hbook in Hbook'. injection Hbook' as <-.
  exists (nextId (borrowRecords (returned now1 bookId k book rec db))).
  split; [apply nextId_fresh|].
  rewrite borrow_eq. unfold returned at 1 2; simpl. rewrite lookup_insert_eq.
  simpl. rewrite bool_decide_eq_false_2 by lia.
  rewrite (no_active_after_return now1 bookId userId db k rec Hone Hk Hact).
  unfold borrowed, returned; simpl. rewrite insert_insert_eq.
  do 2 f_equal. apply insert_id. rewrite Hbook. f_equal.
  destruct book; unfold Book.with_availableQuantity; simpl. f_equal. lia.
Qed.

Lemma return_then_borrow_witness :
  oneOpenLoanPerPair libraryDb
  ∧ books libraryDb !! 1 = Some (sampleBook 5 4)
  ∧ 0 ≤ Book.availableQuantity (sampleBook 5 4)
  ∧ ∃ r db1 loanId,
      return_ 20 1 7 libraryDb = (inr r, db1)
      ∧ borrow 21 1 7 db1
        = (inr (loanId, BorrowRecord.mk 21 (Some 21) 7 1),
           {| books := books libraryDb;
              borrowRecords :=
                <[loanId := BorrowRecord.mk 21 (Some 21) 7 1]>
                  (borrowRecords db1) |}).
Proof.
  split; [exact libraryDb_one_open_loan|]. split; [reflexivity|].
  split; [simpl; lia|].
  destruct (return_ 20 1 7 libraryDb) as [[e|r] db1] eqn:Hrun;
    [by vm_compute in Hrun|].
  assert (0 ≤ Book.availableQuantity (sampleBook 5 4)) as Hge by (simpl; lia).
  destruct (return_then_borrow 20 21 1 7 libraryDb (sampleBook 5 4) r db1
              libraryDb_one_open_loan Hrun eq_refl Hge) as (loanId & _ & Heq).
  exists r, db1, loanId. split; [reflexivity|exact Heq].
Defined.

(** ** [findAll] *)

Lemma ceilDiv_bounds a b :
  0 < b → b * (ceilDiv a b - 1) < a ≤ b * ceilDiv a b.
Proof.
  intros Hb. unfold ceilDiv.
  pose proof (Z.div_mod (- a) b ltac:(lia)) as Hdm.
  pose proof (Z.mod_pos_bound (- a) b Hb) as Hmod.
  nia.
Qed.

Lemma page_length {A} (rows : list A) (page limit : Z) :
  1 ≤ page → 1 ≤ limit →
  Z.of_nat (length (take (Z.to_nat limit)
                      (drop (Z.to_nat ((page - 1) * limit)) rows)))
  = Z.min limit (Z.max 0 (Z.of_nat (length rows) - (page - 1) * limit)).
Proof.
  intros Hpage Hlimit. rewrite length_take, length_drop.
  assert (0 ≤ (page - 1) * limit) by nia. lia.
Qed.

(** X12.  For a page and a limit of at least 1, [findAll] returns
    min(limit, total - (page - 1) * limit) Titles, or none when that is
    negative; each of them is a Title of the store that passes the filters
    of the query, none comes twice, and the total is at most the number of
    Titles in the store. *)
Theorem findAll_page ilike query db :
  let res := findAll ilike query db in
  1 ≤ PaginatedBooksResult.page res →
  1 ≤ PaginatedBooksResult.limit res →
  Z.of_nat (length (PaginatedBooksResult.data res))
  = Z.min (PaginatedBooksResult.limit res)
      (Z.max 0 (PaginatedBooksResult.total res
                - (PaginatedBooksResult.page res - 1)
                  * PaginatedBooksResult.limit res))
  ∧ (∀ kb, kb ∈ PaginatedBooksResult.data res →
       books db !! kb.1 = Some kb.2 ∧ selected ilike query kb = true)
  ∧ NoDup (PaginatedBooksResult.data res)
  ∧ 0 ≤ PaginatedBooksResult.total res ≤ Z.of_nat (size (books db)).
Proof.
  intros res Hpage Hlimit. subst res. unfold findAll in *. simpl in *.
  split; [by apply page_length|]. split; [|split].
  - intros [k b] Hin.
    apply subseteq_take, subseteq_drop, list_elem_of_filter in Hin as [Hsel Hin].
    split; [by apply elem_of_map_to_list in Hin|done].
  - eapply sublist_NoDup; [|apply sublist_take].
    eapply sublist_NoDup; [|apply sublist_drop].
    apply NoDup_filter, NoDup_map_to_list.
  - split; [lia|]. rewrite <-length_map_to_list.
    apply inj_le, length_filter.
Qed.

Lemma findAll_page_witness :
  let res := findAll (λ _ _, true)
               (SearchBookDto.mk (Some "Test") None (Some 2) (Some 1))
               libraryDb in
  1 ≤ PaginatedBooksResult.page res
  ∧ 1 ≤ PaginatedBooksResult.limit res
  ∧ Z.of_nat (length (PaginatedBooksResult.data res)) = 1
  ∧ PaginatedBooksResult.total res = 2.
Proof.
  intros res.
  assert (1 ≤ PaginatedBooksResult.page res) as Hpage by (vm_compute; discriminate).
  assert (1 ≤ PaginatedBooksResult.limit res) as Hlimit by (vm_compute; discriminate).
  split; [exact Hpage|]. split; [exact Hlimit|].
  destruct (findAll_page (λ _ _, true)
              (SearchBookDto.mk (Some "Test") None (Some 2) (Some 1))
              libraryDb Hpage Hlimit) as (Hlen & _).
  split; [|vm_compute; reflexivity].
  etrans; [exact Hlen|]. vm_compute. reflexivity.
Defined.

(** X13.  For a page and a limit of at least 1: the page [findAll] returns
    is non-empty exactly when page <= totalPages; every page before the last
    is full; totalPages is 0 exactly when nothing passes the filters, and
    otherwise it is the least number of pages of that limit that hold the
    total. *)
Theorem findAll_pages ilike query db :
  let res := findAll ilike query db in
  1 ≤ PaginatedBooksResult.page res →
  1 ≤ PaginatedBooksResult.limit res →
  (PaginatedBooksResult.data res ≠ []
   ↔ PaginatedBooksResult.page res ≤ PaginatedBooksResult.totalPages res)
  ∧ (PaginatedBooksResult.page res < PaginatedBooksResult.totalPages res →
     Z.of_nat (length (PaginatedBooksResult.data res))
     = PaginatedBooksResult.limit res)
  ∧ (PaginatedBooksResult.totalPages res = 0
     ↔ PaginatedBooksResult.total res = 0)
  ∧ PaginatedBooksResult.limit res * (PaginatedBooksResult.totalPages res - 1)
    < PaginatedBooksResult.total res
    ≤ PaginatedBooksResult.limit res * PaginatedBooksResult.totalPages res.
Proof.
  intros res Hpage Hlimit. subst res. unfold findAll in *. simpl in *.
  set (page := default 1 (SearchBookDto.page query)) in *.
  set (limit := default 10 (SearchBookDto.limit query)) in *.
  set (rows := filter _ _).
  pose proof (ceilDiv_bounds (Z.of_nat (length rows)) limit ltac:(lia)) as Hceil.
  pose proof (page_length rows page limit Hpage Hlimit) as Hlen.
  set (pages := ceilDiv (Z.of_nat (length rows)) limit) in *.
  set (data := take _ _) in *.
  assert (data ≠ [] ↔ 0 < Z.of_nat (length data)) as ->.
  { destruct data; simpl; split; (done || lia). }
  split; [|split; [|split]]; [| | |exact Hceil].
  - rewrite Hlen. split; intros Hp; nia.
  - intros Hp. rewrite Hlen. nia.
  - split; intros Hp; nia.
Qed.

Lemma findAll_pages_witness :
  let res := findAll (λ _ _, true)
               (SearchBookDto.mk None None (Some 3) (Some 1)) libraryDb in
  1 ≤ PaginatedBooksResult.page res
  ∧ 1 ≤ PaginatedBooksResult.limit res
  ∧ PaginatedBooksResult.totalPages res = 2
  ∧ ¬ PaginatedBooksResult.data res ≠ [].
Proof.
  intros res.
  assert (1 ≤ PaginatedBooksResult.page res) as Hpage by (vm_compute; discriminate).
  assert (1 ≤ PaginatedBooksResult.limit res) as Hlimit by (vm_compute; discriminate).
  split; [exact Hpage|]. split; [exact Hlimit|].
  split; [vm_compute; reflexivity|].
  destruct (findAll_pages (λ _ _, true)
              (SearchBookDto.mk None None (Some 3) (Some 1))
              libraryDb Hpage Hlimit) as (Hiff & _).
  intros Hne. apply Hiff in Hne. vm_compute in Hne. by apply Hne.
Defined.

(** ** Users *)

(** X14.  [UsersService.create] throws the Conflict "Username already
    exists" exactly when a user of that name is stored, and then stores
    nothing. *)
Theorem users_create_rejects_known_name hashed dto (users : gmap Z User.t) :
  (∃ k u, users !! k = Some u ∧ User.username u = CreateUserDto.username dto)
  ↔ UsersService.create hashed dto users = (inl usernameExists, users).
Proof.
  unfold UsersService.create. split.
  - intros (k & u & Hk & Hn).
    destruct (findWhere _ _) as [?|] eqn:Hfind; [done|].
    rewrite findWhere_None in Hfind. by destruct (Hfind k u Hk).
  - destruct (findWhere _ _) as [[k u]|] eqn:Hfind; [|done].
    intros _. apply findWhere_Some in Hfind as [Hk Hn]. by exists k, u.
Qed.

(** X15.  When the name is free, [UsersService.create] stores one new user
    under an id no user had, with the hash in place of the password and the
    role of the DTO, or MEMBER when the DTO names none; the users that were
    there stay as they were, and if no two users shared a name none do
    afterwards. *)
Theorem users_create_inserts hashed dto (users : gmap Z User.t) :
  (∀ k u, users !! k = Some u → User.username u ≠ CreateUserDto.username dto) →
  ∃ id,
    let role := default MEMBER (CreateUserDto.role dto) in
    let saved := User.mk (CreateUserDto.username dto) hashed role in
    users !! id = None
    ∧ UsersService.create hashed dto users
      = (inr (UserCreationResponse.mk id (CreateUserDto.username dto) role),
         <[id := saved]> users)
    ∧ (usernameUnique users → usernameUnique (<[id := saved]> users)).
Proof.
  intros Hfree. exists (nextId users). simpl.
  split; [apply nextId_fresh|]. split.
  - unfold UsersService.create.
    destruct (findWhere _ _) as [[k u]|] eqn:Hfind; [|done].
    apply findWhere_Some in Hfind as [Hk Hn]. by destruct (Hfree k u).
  - intros Huniq k1 u1 k2 u2 H1 H2 Heq.
    apply lookup_insert_Some in H1 as [[<- <-]|[Hne1 H1]];
      apply lookup_insert_Some in H2 as [[<- <-]|[Hne2 H2]]; try done.
    + by destruct (Hfree k2 u2 H2).
    + by destruct (Hfree k1 u1 H1).
    + by apply (Huniq k1 u1 k2 u2).
Qed.

Lemma staff_has_no_johndoe :
  ∀ k u, staff !! k = Some u → User.username u ≠ "johndoe".
Proof.
  intros k u Hk. unfold staff in Hk.
  apply lookup_insert_Some in Hk as [[<- <-]|[? Hk]]; [done|].
  by apply lookup_singleton_Some in Hk as [<- <-].
Defined.

Lemma users_create_inserts_witness :
  (∀ k u, staff !! k = Some u → User.username u ≠ "johndoe")
  ∧ ∃ id,
      staff !! id = None
      ∧ UsersService.create "$2b$10$hash-j"
          (CreateUserDto.mk "johndoe" "password123" None) staff
        = (inr (UserCreationResponse.mk id "johndoe" MEMBER),
           <[id := User.mk "johndoe" "$2b$10$hash-j" MEMBER]> staff).
Proof.
  split; [exact staff_has_no_johndoe|].
  destruct (users_create_inserts "$2b$10$hash-j"
              (CreateUserDto.mk "johndoe" "password123" None) staff
              staff_has_no_johndoe) as (id & Hid & Heq & _).
  exists id. split; [exact Hid|exact Heq].
Defined.

(** X16.  [UsersController.register] never grants a privilege: whatever role
    the request names, the user it stores and reports is a MEMBER, and every
    user of the table that is not a MEMBER afterwards was in the table
    before, unchanged. *)
Theorem register_grants_no_privilege hashed dto (users users' : gmap Z User.t)
    response :
  UsersController.register hashed dto users = (inr response, users') →
  UserCreationResponse.role response = MEMBER
  ∧ users' !! UserCreationResponse.id response
    = Some (User.mk (CreateUserDto.username dto) hashed MEMBER)
  ∧ ∀ k u, users' !! k = Some u → User.role u ≠ MEMBER → users !! k = Some u.
Proof.
  unfold UsersController.register, UsersService.create. simpl.
  destruct (findWhere _ _); [done|]. intros; simplify_eq. simpl.
  split; [done|]. split; [apply lookup_insert_eq|].
  intros k u Hk Hrole.
  by apply lookup_insert_Some in Hk as [[<- <-]|[_ Hk]].
Qed.

Lemma register_grants_no_privilege_witness :
  ∃ response users',
    UsersController.register "$2b$10$hash-j"
      (CreateUserDto.mk "johndoe" "password123" (Some ADMIN)) staff
    = (inr response, users')
    ∧ UserCreationResponse.role response = MEMBER.
Proof.
  destruct (UsersController.register "$2b$10$hash-j"
              (CreateUserDto.mk "johndoe" "password123" (Some ADMIN)) staff)
    as [[e|response] users'] eqn:Hrun; [by vm_compute in Hrun|].
  exists response, users'. split; [reflexivity|].
  exact (proj1 (register_grants_no_privilege _ _ _ _ _ Hrun)).
Defined.

(** X17.  A user that [UsersService.create] has stored is the one
    [UsersService.findOne] finds under that name, with the hash as password,
    and the name cannot be taken a second time: a later [create] of the same
    name throws the Conflict and stores nothing. *)
Theorem users_create_then_find hashed hashed' dto dto'
    (users users' : gmap Z User.t) response :
  UsersService.create hashed dto users = (inr response, users') →
  CreateUserDto.username dto' = CreateUserDto.username dto →
  UsersService.findOne (CreateUserDto.username dto) users'
  = Some (UserCreationResponse.id response,
          User.mk (CreateUserDto.username dto) hashed
            (UserCreationResponse.role response))
  ∧ UsersService.create hashed' dto' users' = (inl usernameExists, users').
Proof.
  unfold UsersService.create, UsersService.findOne. intros Hrun Hname.
  destruct (findWhere (hasUsername (CreateUserDto.username dto)) users)
    eqn:Hfind; [done|].
  simplify_eq. simpl. rewrite Hname.
  by rewrite (findWhere_insert_fresh _ _ _ _ Hfind).
Qed.

Lemma users_create_then_find_witness :
  ∃ response users',
    UsersService.create "$2b$10$hash-j"
      (CreateUserDto.mk "johndoe" "password123" (Some LIBRARIAN)) staff
    = (inr response, users')
    ∧ UsersService.findOne "johndoe" users'
      = Some (UserCreationResponse.id response,
              User.mk "johndoe" "$2b$10$hash-j"
                (UserCreationResponse.role response))
    ∧ UsersService.create "$2b$10$hash-k"
        (CreateUserDto.mk "johndoe" "another-password" None) users'
      = (inl usernameExists, users').
Proof.
  destruct (UsersService.create "$2b$10$hash-j"
              (CreateUserDto.mk "johndoe" "password123" (Some LIBRARIAN)) staff)
    as [[e|response] users'] eqn:Hrun; [by vm_compute in Hrun|].
  exists response, users'. split; [reflexivity|].
  exact (users_create_then_find "$2b$10$hash-j" "$2b$10$hash-k" _
           (CreateUserDto.mk "johndoe" "another-password" None)
           staff users' response Hrun eq_refl).
Defined.

(** ** Seeding *)

Section seed_users.
Variable hashed : string → string.
Implicit Types users : gmap Z User.t.

Lemma seedUser_cases userData users :
  (∃ k u, users !! k = Some u ∧ User.username u = User.username userData)
  ∧ seedUser hashed userData users = users
  ∨ (∀ k u, users !! k = Some u → User.username u ≠ User.username userData)
    ∧ users !! nextId users = None
    ∧ seedUser hashed userData users
      = <[nextId users := User.mk (User.username userData)
                            (hashed (User.username userData))
                            (User.role userData)]> users.
Proof.
  unfold seedUser.
  destruct (findWhere _ _) as [[k u]|] eqn:Hfind.
  - left. apply findWhere_Some in Hfind as [Hk Hn]. eauto.
  - right. rewrite findWhere_None in Hfind.
    split; [exact Hfind|]. split; [apply nextId_fresh|done].
Qed.

Lemma seedUser_keeps userData users k u :
  users !! k = Some u → seedUser hashed userData users !! k = Some u.
Proof.
  intros Hk. destruct (seedUser_cases userData users)
    as [[_ ->]|(_ & Hfresh & ->)]; [done|].
  rewrite lookup_insert_ne; [done|]. intros <-. by rewrite Hfresh in Hk.
Qed.

Lemma seedUser_present userData users :
  ∃ k u, seedUser hashed userData users !! k = Some u
         ∧ User.username u = User.username userData.
Proof.
  destruct (seedUser_cases userData users)
    as [[(k & u & Hk & Hn) ->]|(_ & _ & ->)]; [eauto|].
  eexists _, _. by rewrite lookup_insert_eq.
Qed.

Lemma seedUsers_keeps l users k u :
  users !! k = Some u →
  foldl (λ us ud, seedUser hashed ud us) users l !! k = Some u.
Proof.
  revert users. induction l as [|ud l IH]; intros users Hk; [done|].
  simpl. by apply IH, seedUser_keeps.
Qed.

Lemma seedUsers_present l users ud :
  ud ∈ l →
  ∃ k u, foldl (λ us ud, seedUser hashed ud us) users l !! k = Some u
         ∧ User.username u = User.username ud.
Proof.
  revert users. induction l as [|ud' l IH]; intros users Hin;
    [by apply elem_of_nil in Hin|].
  apply elem_of_cons in Hin as [->|Hin]; simpl; [|by apply IH].
  destruct (seedUser_present ud' users) as (k & u & Hk & Hn).
  exists k, u. split; [|done]. by apply seedUsers_keeps.
Qed.
End seed_users.

Lemma seedUsers_noop hashed l (users : gmap Z User.t) :
  (∀ ud, ud ∈ l →
     ∃ k u, users !! k = Some u ∧ User.username u = User.username ud) →
  foldl (λ us ud, seedUser hashed ud us) users l = users.
Proof.
  induction l as [|ud l IH]; intros Hall; [done|]. simpl.
  destruct (seedUser_cases hashed ud users) as [[_ ->]|(Hfree & _)].
  - apply IH. intros ud' Hin. apply Hall. by apply elem_of_cons; right.
  - destruct (Hall ud) as (k & u & Hk & Hn); [by apply elem_of_cons; left|].
    by destruct (Hfree k u).
Qed.

Lemma seedBook_known bookData db :
  (∃ k b, books db !! k = Some b ∧ Book.isbn b = Book.isbn bookData) →
  seedBook bookData db = (inr (), db).
Proof.
  intros (k & b & Hk & Hi).
  unfold seedBook, mbind, Tx_bind, findOneBookByIsbn.
  destruct (findWhere _ _) as [[k' b']|] eqn:Hfind; [done|].
  rewrite findWhere_None in Hfind. by destruct (Hfind k b Hk).
Qed.

(** One round of the loop over the books, for a row that fits the columns:
    nothing when the ISBN is there, an insert under a new id otherwise; it
    does not throw. *)
Lemma seedBook_cases bookData db :
  fitsColumns bookData →
  (∃ k b, books db !! k = Some b ∧ Book.isbn b = Book.isbn bookData)
  ∧ seedBook bookData db = (inr (), db)
  ∨ isbnFree (Book.isbn bookData) db
    ∧ books db !! nextId (books db) = None
    ∧ seedBook bookData db
      = (inr (), {| books := <[nextId (books db) := bookData]> (books db);
                    borrowRecords := borrowRecords db |}).
Proof.
  intros Hfits. unfold seedBook, mbind, Tx_bind, findOneBookByIsbn.
  destruct (findWhere _ _) as [[k b]|] eqn:Hfind.
  - left. apply findWhere_Some in Hfind as [Hk Hi]. eauto.
  - right. apply isbnFree_find in Hfind.
    split; [exact Hfind|]. split; [apply nextId_fresh|].
    unfold insertBook, saveBook. rewrite bool_decide_eq_true_2 by done.
    rewrite (isbnFree_other _ (nextId (books db)) _ Hfind).
    rewrite (bool_decide_eq_false_2 (is_Some None)) by (by intros [? ?]).
    by rewrite andb_false_r.
Qed.

(** What [seedBooks] leaves, for rows that fit the columns: it does not
    throw; the Loans and the Titles that were there are as they were; a
    Title that was not there is one of the list, under an id no Title had;
    every ISBN of the list is there. *)
Lemma seedBooks_spec l db :
  Forall fitsColumns l →
  ∃ db',
    seedBooks l db = (inr (), db')
    ∧ borrowRecords db' = borrowRecords db
    ∧ (∀ k b, books db !! k = Some b → books db' !! k = Some b)
    ∧ (∀ k b, books db' !! k = Some b →
         books db !! k = Some b ∨ (books db !! k = None ∧ b ∈ l))
    ∧ (∀ bookData, bookData ∈ l →
         ∃ k b, books db' !! k = Some b ∧ Book.isbn b = Book.isbn bookData).
Proof.
  intros Hfit. revert db.
  induction Hfit as [|bd l Hbd Hfit IH]; intros db.
  - exists db. repeat split; try done; [eauto|].
    intros bd Hin. by apply elem_of_nil in Hin.
  - simpl. unfold mbind, Tx_bind.
    destruct (seedBook_cases bd db Hbd)
      as [[(k0 & b0 & Hk0 & Hi0) ->]|(Hfree & Hfresh & ->)].
    + destruct (IH db) as (db' & -> & Hrec & Hkeep & Hnew & Hall).
      exists db'. split; [done|]. split; [done|]. split; [done|]. split.
      * intros k b Hk. destruct (Hnew k b Hk) as [?|[? ?]]; [by left|].
        right. split; [done|]. by apply elem_of_cons; right.
      * intros bd' [->|Hin]%elem_of_cons; [|by apply Hall].
        exists k0, b0. split; [by apply Hkeep|done].
    + set (db1 := {| books := <[nextId (books db) := bd]> (books db);
                     borrowRecords := borrowRecords db |}).
      destruct (IH db1) as (db' & -> & Hrec & Hkeep & Hnew & Hall).
      exists db'. split; [done|]. split; [done|].
      assert (∀ k b, books db !! k = Some b → books db1 !! k = Some b) as Hup.
      { intros k b Hk. simpl. rewrite lookup_insert_ne; [done|].
        intros <-. by rewrite Hfresh in Hk. }
      split; [intros k b Hk; by apply Hkeep, Hup|]. split.
      * intros k b Hk. destruct (Hnew k b Hk) as [Hk1|[Hk1 Hin]].
        -- simpl in Hk1. apply lookup_insert_Some in Hk1 as [[<- <-]|[_ Hk1]].
           ++ right. split; [done|]. by apply elem_of_cons; left.
           ++ by left.
        -- right. simpl in Hk1. apply lookup_insert_None in Hk1 as [Hk1 _].
           split; [done|]. by apply elem_of_cons; right.
      * intros bd' [->|Hin]%elem_of_cons; [|by apply Hall].
        exists (nextId (books db)), bd. split; [|done].
        apply Hkeep. simpl. apply lookup_insert_eq.
Qed.

Lemma seedBooks_noop l db :
  (∀ bookData, bookData ∈ l →
     ∃ k b, books db !! k = Some b ∧ Book.isbn b = Book.isbn bookData) →
  seedBooks l db = (inr (), db).
Proof.
  induction l as [|bd l IH]; intros Hall; [done|]. simpl.
  unfold mbind, Tx_bind.
  rewrite seedBook_known by (apply Hall; by apply elem_of_cons; left).
  apply IH. intros bd' Hin. apply Hall. by apply elem_of_cons; right.
Qed.

Lemma booksToSeed_fit : Forall fitsColumns booksToSeed.
Proof. repeat constructor; unfold inInteger; simpl; lia. Qed.

(** X18.  Seeding is idempotent: on a store that has been seeded, a second
    run of [seedDatabase] changes nothing, whatever hashes it would have
    produced. *)
Theorem seed_twice hashed hashed' w :
  seedDatabase hashed' (seedDatabase hashed w) = seedDatabase hashed w.
Proof.
  unfold seedDatabase. cbn [fst snd].
  destruct (seedBooks_spec booksToSeed w.2 booksToSeed_fit)
    as (db' & Hrun & _ & _ & _ & Hall).
  rewrite Hrun. cbn [fst snd]. f_equal.
  - apply seedUsers_noop. intros ud Hin. by apply seedUsers_present.
  - by rewrite (seedBooks_noop booksToSeed db' Hall).
Qed.

(** X19.  [seedDatabase] only adds: every user, Title and Loan that was
    stored is there unchanged afterwards, and afterwards each of the three
    default user names and each of the five default ISBNs is in the store. *)
Theorem seed_only_adds hashed w :
  let w' := seedDatabase hashed w in
  (∀ k u, w.1 !! k = Some u → w'.1 !! k = Some u)
  ∧ (∀ k b, books w.2 !! k = Some b → books w'.2 !! k = Some b)
  ∧ borrowRecords w'.2 = borrowRecords w.2
  ∧ (∀ ud, ud ∈ usersToSeed →
       ∃ k u, w'.1 !! k = Some u ∧ User.username u = User.username ud)
  ∧ (∀ bd, bd ∈ booksToSeed →
       ∃ k b, books w'.2 !! k = Some b ∧ Book.isbn b = Book.isbn bd).
Proof.
  unfold seedDatabase. cbn [fst snd].
  destruct (seedBooks_spec booksToSeed w.2 booksToSeed_fit)
    as (db' & -> & Hrec & Hkeep & _ & Hall). cbn [fst snd].
  split; [intros k u; apply seedUsers_keeps|].
  split; [exact Hkeep|]. split; [exact Hrec|].
  split; [intros ud; apply seedUsers_present|exact Hall].
Qed.

(** X20.  The seeded catalogue does not satisfy the core invariant: on a
    store whose Loans refer to stored Titles and that has no Title with the
    ISBN 978-0743273565, [seedDatabase] stores "The Great Gatsby" with 4
    copies of which 2 are available, and no Loan refers to it. *)
Theorem seed_breaks_core_invariant hashed users db :
  referencesExist db →
  isbnFree "978-0743273565" db →
  let db' := (seedDatabase hashed (users, db)).2 in
  (∃ k b, books db' !! k = Some b
          ∧ Book.quantity b = 4 ∧ Book.availableQuantity b = 2
          ∧ openLoans k db' = 0%nat)
  ∧ ¬ coreInvariant db'.
Proof.
  intros Href Hfree. unfold seedDatabase. cbn [fst snd].
  destruct (seedBooks_spec booksToSeed db booksToSeed_fit)
    as (db' & -> & Hrec & _ & Hnew & Hall). cbn [fst snd].
  destruct (Hall (Book.mk "The Great Gatsby" "F. Scott Fitzgerald"
                    "978-0743273565" 1925 4 2 None))
    as (k & b & Hk & Hi).
  { unfold booksToSeed. set_solver. }
  simpl in Hi.
  destruct (Hnew k b Hk) as [Hold|[Hnone Hin]]; [by destruct (Hfree k b)|].
  assert (Book.quantity b = 4 ∧ Book.availableQuantity b = 2) as [Hq Ha].
  { unfold booksToSeed in Hin.
    repeat (apply elem_of_cons in Hin as [->|Hin]; [by (done || simpl in Hi)|]).
    by apply elem_of_nil in Hin. }
  assert (openLoans k db' = 0%nat) as Hloans.
  { apply openLoans_none. rewrite Hrec. intros k' r Hk' Hb.
    destruct (Href k' r Hk') as [b' Hb']. by rewrite Hb, Hnone in Hb'. }
  split; [by exists k, b|].
  intros Hinv. destruct (Hinv k b Hk) as [_ Hcount].
  rewrite Hq, Ha, Hloans in Hcount. done.
Qed.

Lemma seed_breaks_core_invariant_witness :
  referencesExist emptyDb
  ∧ isbnFree "978-0743273565" emptyDb
  ∧ ¬ coreInvariant (seedDatabase (λ name, "hash of " +:+ name) (∅, emptyDb)).2.
Proof.
  assert (isbnFree "978-0743273565" emptyDb) as Hfree.
  { intros k b Hk. simpl in Hk. by rewrite lookup_empty in Hk. }
  split; [exact (proj2 emptyDb_consistent)|]. split; [exact Hfree|].
  exact (proj2 (seed_breaks_core_invariant (λ name, "hash of " +:+ name) ∅
                  emptyDb (proj2 emptyDb_consistent) Hfree)).
Defined.

(** ** Two calls for one Title, in general *)

Section two_calls.
Variables (id : Z) (c1 c2 : BorrowCall.t).
Hypothesis Hid1 : BorrowCall.bookId c1 = id.
Hypothesis Hid2 : BorrowCall.bookId c2 = id.

Local Abbreviation call t := (if t then c1 else c2) (only parsing).

Lemma call_bookId (t : bool) : BorrowCall.bookId (call t) = id.
Proof. by destruct t. Qed.

Lemma conf_swap (t : bool) s l p q : conf (negb t) s l q p = conf t s l p q.
Proof. by destruct t. Qed.

Lemma rest_find_record c book s :
  books s !! BorrowCall.bookId c = Some book →
  ¬ Book.availableQuantity book ≤ 0 →
  rest c (AtFindRecord book) s = borrowOf c s.
Proof.
  intros Hbook Havail. unfold borrowOf. rewrite borrow_eq, Hbook.
  rewrite bool_decide_eq_false_2 by done.
  unfold rest, restFind, restBook, restRecord.
  destruct (findWhere _ _); [done|].
  by rewrite (saveBook_same_isbn _ book _ s Hbook).
Qed.

(** The first turn of a call, on a Title that is not locked: the call
    settles at once, with what [borrow] gives, or it takes the lock. *)
Lemma step_start (t : bool) s (l : gmap Z bool) q :
  l !! id = None →
  (∃ r, stepBorrow (call t) t (conf t s l AtFindBook q)
        = conf t s l (Settled r) q
        ∧ borrowOf (call t) s = (r, s))
  ∨ (∃ book, stepBorrow (call t) t (conf t s l AtFindBook q)
             = conf t s (<[id := t]> l) (AtFindRecord book) q
             ∧ is_Some (books s !! id)
             ∧ rest (call t) (AtFindRecord book) s = borrowOf (call t) s).
Proof.
  intros Hl. pose proof (call_bookId t) as Hid.
  assert (stepBorrow (call t) t (conf t s l AtFindBook q)
          = match books s !! id with
            | None => conf t s l (Settled (inl (bookNotFound id))) q
            | Some book =>
                if bool_decide (Book.availableQuantity book ≤ 0)
                then conf t s l (Settled (inl noCopies)) q
                else conf t s (<[id := t]> l) (AtFindRecord book) q
            end) as ->.
  { destruct t; unfold stepBorrow; simpl; rewrite Hid;
      (destruct (books s !! id); [|done]); rewrite Hl; by case_bool_decide. }
  destruct (books s !! id) as [book|] eqn:Hbook.
  - case_bool_decide as Havail.
    + left. eexists. split; [done|]. unfold borrowOf.
      by rewrite borrow_eq, Hid, Hbook, bool_decide_eq_true_2.
    + right. exists book. split; [done|]. split; [done|].
      apply rest_find_record; [by rewrite Hid|done].
  - left. eexists. split; [done|]. unfold borrowOf.
    by rewrite borrow_eq, Hid, Hbook.
Qed.

(** A turn of the call that holds the lock: what it has left to do is
    unchanged; it keeps the lock until it settles. *)
Lemma step_critical (t : bool) s (l : gmap Z bool) p q :
  critical p →
  ∃ s' l' p',
    stepBorrow (call t) t (conf t s l p q) = conf t s' l' p' q
    ∧ rest (call t) p' s' = rest (call t) p s
    ∧ (turnsLeft p' < turnsLeft p)%nat
    ∧ (critical p' ∧ l' = l
       ∧ (is_Some (books s !! id) → is_Some (books s' !! id))
       ∨ ∃ r, p' = Settled r ∧ l' = delete id l).
Proof.
  intros Hp. pose proof (call_bookId t) as Hid.
  destruct p as [|book|book|old|saved|r]; try done.
  - assert (stepBorrow (call t) t (conf t s l (AtFindRecord book) q)
            = match findWhere (activeRecord id (BorrowCall.userId (call t)))
                      (borrowRecords s) with
              | Some _ => conf t s (delete id l) (Settled (inl alreadyBorrowed)) q
              | None => conf t s l (AtSaveBook book) q
              end) as ->.
    { destruct t; unfold stepBorrow; simpl; rewrite Hid;
        by destruct (findWhere _ _). }
    unfold rest at 2, restFind. rewrite Hid.
    destruct (findWhere _ _).
    + eexists _, _, _. split; [done|]. split; [done|]. split; [simpl; lia|].
      right. eauto.
    + eexists _, _, _. split; [done|]. split; [done|]. split; [simpl; lia|].
      left. done.
  - assert (stepBorrow (call t) t (conf t s l (AtSaveBook book) q)
            = match saveBook id (Book.with_availableQuantity
                                   (Book.availableQuantity book - 1) book) s with
              | (inl e, _) => conf t s (delete id l) (Settled (inl e)) q
              | (inr _, s') => conf t s' l (AtSaveRecord book) q
              end) as ->.
    { destruct t; unfold stepBorrow; simpl; rewrite Hid;
        by destruct (saveBook _ _ _) as [[?|?] ?]. }
    unfold rest at 2, restBook. rewrite Hid.
    destruct (saveBook _ _ _) as [[e|r] s'] eqn:Hsave.
    + eexists _, _, _. split; [done|]. split; [done|]. split; [simpl; lia|].
      right. eauto.
    + eexists _, _, _. split; [done|]. split; [done|]. split; [simpl; lia|].
      left. split; [done|]. split; [done|].
      apply saveBook_inv in Hsave as (_ & -> & _). simpl.
      intros _. rewrite lookup_insert_eq. eauto.
  - assert (stepBorrow (call t) t (conf t s l (AtSaveRecord old) q)
            = conf t (insertBorrowRecord (BorrowCall.now (call t)) id
                        (BorrowCall.userId (call t)) s).2 l
                (AtCommit (nextId (borrowRecords s),
                           BorrowRecord.mk (BorrowCall.now (call t))
                             (Some (BorrowCall.now (call t)))
                             (BorrowCall.userId (call t)) id)) q) as ->.
    { destruct t; unfold stepBorrow; simpl; by rewrite Hid. }
    eexists _, _, _. split; [done|]. split.
    { unfold rest, restRecord. by rewrite Hid. }
    split; [simpl; lia|]. left. done.
  - assert (stepBorrow (call t) t (conf t s l (AtCommit saved) q)
            = conf t s (delete id l) (Settled (inr saved)) q) as ->.
    { destruct t; unfold stepBorrow; simpl; by rewrite Hid. }
    eexists _, _, _. split; [done|]. split; [done|]. split; [simpl; lia|].
    right. eauto.
Qed.

(** A call that asks for a Title that is locked waits. *)
Lemma step_blocked (t owner : bool) s (l : gmap Z bool) q :
  is_Some (books s !! id) → l !! id = Some owner →
  stepBorrow (call t) t (conf t s l AtFindBook q) = conf t s l AtFindBook q.
Proof.
  intros [book Hbook] Hl. pose proof (call_bookId t) as Hid.
  destruct t; unfold stepBorrow; simpl; by rewrite Hid, Hbook, Hl.
Qed.

Lemma step_settled (t : bool) s (l : gmap Z bool) r q :
  stepBorrow (call t) t (conf t s l (Settled r) q) = conf t s l (Settled r) q.
Proof. by destruct t. Qed.

Lemma rank_conf (t : bool) s l p q :
  rank (conf t s l p q) = (turnsLeft p + turnsLeft q)%nat.
Proof. destruct t; unfold rank; simpl; lia. Qed.

Lemma firstThenSecond_eq db r s1 r' s2 :
  borrowOf c1 db = (r, s1) → borrowOf c2 s1 = (r', s2) →
  firstThenSecond c1 c2 db
  = {| store := s2; locks := ∅; pcFirst := Settled r; pcSecond := Settled r' |}.
Proof. unfold firstThenSecond, borrowOf. intros ->. simpl. by intros ->. Qed.

Lemma secondThenFirst_eq db r s1 r' s2 :
  borrowOf c2 db = (r, s1) → borrowOf c1 s1 = (r', s2) →
  secondThenFirst c1 c2 db
  = {| store := s2; locks := ∅; pcFirst := Settled r'; pcSecond := Settled r |}.
Proof. unfold secondThenFirst, borrowOf. intros ->. simpl. by intros ->. Qed.

Variable db0 : Db.

(** One turn of either call keeps the configuration among the serialized
    ones. *)
Lemma serialized_step cfg (s : bool) :
  serialized db0 id c1 c2 cfg →
  serialized db0 id c1 c2 (stepBorrow (call s) s cfg).
Proof.
  destruct 1 as [|t p s0 Hp Hbook Hrest|t r s0 Hr|t p s0 r s1 Hp Hbook Hr Hrest| |].
  - replace (initial db0) with (conf s db0 ∅ AtFindBook AtFindBook)
      by (by destruct s).
    destruct (step_start s db0 ∅ AtFindBook (lookup_empty _))
      as [(r & -> & Hr)|(book & -> & Hb & Hrest)].
    + by apply serialized_half.
    + rewrite insert_empty. by apply serialized_first.
  - destruct (decide (s = t)) as [->|Hne].
    + destruct (step_critical t s0 {[id := t]} p AtFindBook Hp)
        as (s' & l' & p' & -> & Hrest' & _ & [(Hp' & -> & Hb')|(r & -> & ->)]).
      * apply serialized_first; [done|by apply Hb'|by rewrite Hrest'].
      * rewrite delete_singleton_eq. apply serialized_half.
        by rewrite <- Hrest, <- Hrest'.
    + assert (s = negb t) as -> by (by destruct s, t).
      rewrite <- conf_swap.
      rewrite (step_blocked (negb t) t); [|done|apply lookup_singleton_eq].
      rewrite conf_swap. by apply serialized_first.
  - destruct (decide (s = t)) as [->|Hne].
    + rewrite step_settled. by apply serialized_half.
    + assert (s = negb t) as -> by (by destruct s, t).
      rewrite <- conf_swap.
      destruct (step_start (negb t) s0 ∅ (Settled r) (lookup_empty _))
        as [(r' & -> & Hr')|(book & -> & Hb & Hrest)].
      * destruct t; simpl in *.
        -- rewrite <- (firstThenSecond_eq db0 r s0 r' s0) by done.
           apply serialized_done_first.
        -- rewrite <- (secondThenFirst_eq db0 r s0 r' s0) by done.
           apply serialized_done_second.
      * rewrite insert_empty.
        apply (serialized_second _ _ _ _ (negb t) _ _ r s0); [done|done| |done].
        by destruct t.
  - destruct (decide (s = t)) as [->|Hne].
    + destruct (step_critical t s0 {[id := t]} p (Settled r) Hp)
        as (s' & l' & p' & -> & Hrest' & _ & [(Hp' & -> & Hb')|(r' & -> & ->)]).
      * apply (serialized_second _ _ _ _ t _ _ r s1);
          [done|by apply Hb'|done|by rewrite Hrest'].
      * rewrite delete_singleton_eq.
        assert (borrowOf (call t) s1 = (r', s')) as Hr'
          by (by rewrite <- Hrest, <- Hrest').
        destruct t; simpl in *.
        -- rewrite <- (secondThenFirst_eq db0 r s1 r' s') by done.
           apply serialized_done_second.
        -- rewrite <- (firstThenSecond_eq db0 r s1 r' s') by done.
           apply serialized_done_first.
    + assert (s = negb t) as -> by (by destruct s, t).
      rewrite <- conf_swap, step_settled, conf_swap.
      by apply (serialized_second _ _ _ _ t _ _ r s1).
  - destruct s; apply serialized_done_first.
  - destruct s; apply serialized_done_second.
Qed.

Lemma serialized_run cfg schedule :
  serialized db0 id c1 c2 cfg →
  serialized db0 id c1 c2 (runBorrows c1 c2 schedule cfg).
Proof.
  revert cfg. induction schedule as [|s schedule IH]; intros cfg Hcfg; [done|].
  simpl. apply IH. by apply (serialized_step cfg s) in Hcfg.
Qed.

(** No deadlock: as long as a call is in flight, one of the two can take a
    turn that brings it forward. *)
Lemma serialized_progress cfg :
  serialized db0 id c1 c2 cfg →
  settled cfg ∨ ∃ s : bool, (rank (stepBorrow (call s) s cfg) < rank cfg)%nat.
Proof.
  destruct 1 as [|t p s0 Hp Hbook Hrest|t r s0 Hr|t p s0 r s1 Hp Hbook Hr Hrest| |].
  - right. exists true.
    change (initial db0) with (conf true db0 ∅ AtFindBook AtFindBook).
    destruct (step_start true db0 ∅ AtFindBook (lookup_empty _))
      as [(r & -> & _)|(book & -> & _)]; rewrite !rank_conf; simpl; lia.
  - right. exists t.
    destruct (step_critical t s0 {[id := t]} p AtFindBook Hp)
      as (s' & l' & p' & -> & _ & Hlt & _).
    rewrite !rank_conf. lia.
  - right. exists (negb t). rewrite <- conf_swap.
    destruct (step_start (negb t) s0 ∅ (Settled r) (lookup_empty _))
      as [(r' & -> & _)|(book & -> & _)]; rewrite !rank_conf; simpl; lia.
  - right. exists t.
    destruct (step_critical t s0 {[id := t]} p (Settled r) Hp)
      as (s' & l' & p' & -> & _ & Hlt & _).
    rewrite !rank_conf. lia.
  - left. by eexists _, _.
  - left. by eexists _, _.
Qed.

Lemma serialized_completes cfg :
  serialized db0 id c1 c2 cfg →
  ∃ more, settled (runBorrows c1 c2 more cfg).
Proof.
  remember (rank cfg) as n eqn:Hn. revert cfg Hn.
  induction (lt_wf n) as [n _ IH]. intros cfg -> Hcfg.
  destruct (serialized_progress cfg Hcfg) as [Hdone|[s Hlt]]; [by exists []|].
  destruct (IH _ Hlt _ eq_refl (serialized_step cfg s Hcfg)) as [more Hmore].
  exists (s :: more). simpl. by destruct s.
Qed.

(** When both calls are settled, they are where one of the two serial
    orders brings them. *)
Lemma serialized_settled cfg :
  serialized db0 id c1 c2 cfg → settled cfg →
  cfg = firstThenSecond c1 c2 db0 ∨ cfg = secondThenFirst c1 c2 db0.
Proof.
  intros Hcfg (r1 & r2 & Hr1 & Hr2).
  destruct Hcfg as [|t p s0 Hp|t r s0|t p s0 r s1 Hp| |];
    [simpl in *; discriminate| | | |by left|by right].
  all: destruct t; simpl in *; try discriminate.
  all: destruct p; try done; discriminate.
Qed.
End two_calls.

(** X21.  Two [borrow] calls for the same Title, from any store and under any
    schedule of their turns: the schedule can always be completed, and once
    both calls are settled the results and the store are those of the two
    calls run one after the other, in one order or the other. *)
Theorem borrows_serialize (db : Db) (c1 c2 : BorrowCall.t)
    (schedule : list bool) :
  BorrowCall.bookId c1 = BorrowCall.bookId c2 →
  let cfg := runBorrows c1 c2 schedule (initial db) in
  (∃ more, settled (runBorrows c1 c2 more cfg))
  ∧ (settled cfg →
     cfg = firstThenSecond c1 c2 db ∨ cfg = secondThenFirst c1 c2 db).
Proof.
  intros Hid cfg.
  assert (serialized db (BorrowCall.bookId c1) c1 c2 cfg) as Hcfg.
  { apply serialized_run; [done|by symmetry|apply serialized_start]. }
  split.
  - by apply (serialized_completes (BorrowCall.bookId c1) c1 c2 eq_refl
                (eq_sym Hid) db).
  - by apply (serialized_settled (BorrowCall.bookId c1) c1 c2 db).
Qed.

Lemma borrows_serialize_witness :
  let c1 := BorrowCall.mk 10 1 8 in
  let c2 := BorrowCall.mk 11 1 9 in
  let cfg := runBorrows c1 c2
               [true; false; true; true; false; true; true;
                false; false; false; false; false]
               (initial libraryDb) in
  settled cfg
  ∧ (∃ more, settled (runBorrows c1 c2 more cfg))
  ∧ (cfg = firstThenSecond c1 c2 libraryDb
     ∨ cfg = secondThenFirst c1 c2 libraryDb).
Proof.
  intros c1 c2 cfg.
  assert (settled cfg) as Hsettled by (vm_compute; by eexists _, _).
  pose proof (borrows_serialize libraryDb c1 c2
                [true; false; true; true; false; true; true;
                 false; false; false; false; false] eq_refl) as [Hmore Hserial].
  split; [exact Hsettled|]. split; [exact Hmore|]. exact (Hserial Hsettled).
Defined.

(** ** What two calls in flight do to the counts *)

Lemma borrow_failure_keeps now bookId userId db e db' :
  borrow now bookId userId db = (inl e, db') → db' = db.
Proof.
  rewrite borrow_eq.
  destruct (books db !! bookId) as [book|]; [|by intros [= _ <-]].
  case_bool_decide; [by intros [= _ <-]|].
  destruct (findWhere _ _); [by intros [= _ <-]|done].
Qed.

Lemma borrow_first now bookId userId db book :
  books db !! bookId = Some book →
  0 < Book.availableQuantity book →
  ¬ hasActiveRecord bookId userId db →
  borrow now bookId userId db
  = (inr (nextId (borrowRecords db),
          BorrowRecord.mk now (Some now) userId bookId),
     borrowed now bookId userId book db).
Proof.
  intros Hbook Havail Hnone%findOneBorrowRecord_None.
  rewrite borrow_eq, Hbook, Hnone.
  by rewrite bool_decide_eq_false_2 by lia.
Qed.

Lemma borrow_again now1 now2 bookId userId db book :
  books db !! bookId = Some book →
  1 < Book.availableQuantity book →
  ¬ hasActiveRecord bookId userId db →
  let db1 := borrowed now1 bookId userId book db in
  borrow now2 bookId userId db1
  = (inr (nextId (borrowRecords db1),
          BorrowRecord.mk now2 (Some now2) userId bookId),
     borrowed now2 bookId userId
       (Book.with_availableQuantity (Book.availableQuantity book - 1) book)
       db1).
Proof.
  intros Hbook Havail Hnone db1. apply borrow_first.
  - unfold db1, borrowed; simpl. apply lookup_insert_eq.
  - simpl. lia.
  - intros (k & r & Hk & Hact). unfold db1, borrowed in Hk; simpl in Hk.
    apply lookup_insert_Some in Hk as [[_ <-]|[_ Hk]].
    + by destruct Hact as (_ & _ & ?).
    + apply Hnone. by exists k, r.
Qed.

(** X22.  The same borrower asks twice for the same Title while the first
    request is still in flight (a double click), holding no open Loan on it:
    when more than one copy is available, then under every schedule both
    calls come back with a Loan, under two different ids, and two copies are
    taken; when one copy is available, one call gets a Loan and the other is
    refused with "No copies of this book are available.".  The Conflict
    "You have already borrowed this book." is raised in neither case. *)
Theorem double_submit (db : Db) (now1 now2 bookId userId : Z) (book : Book.t)
    (schedule : list bool) :
  books db !! bookId = Some book →
  ¬ hasActiveRecord bookId userId db →
  let c1 := BorrowCall.mk now1 bookId userId in
  let c2 := BorrowCall.mk now2 bookId userId in
  let cfg := runBorrows c1 c2 schedule (initial db) in
  settled cfg →
  (1 < Book.availableQuantity book →
   ∃ loan1 loan2 book2,
     pcFirst cfg = Settled (inr loan1)
     ∧ pcSecond cfg = Settled (inr loan2)
     ∧ loan1.1 ≠ loan2.1
     ∧ books (store cfg) !! bookId = Some book2
     ∧ Book.availableQuantity book2 = Book.availableQuantity book - 2)
  ∧ (Book.availableQuantity book = 1 →
     ∃ loan,
       (pcFirst cfg = Settled (inr loan)
        ∧ pcSecond cfg = Settled (inl noCopies))
       ∨ (pcFirst cfg = Settled (inl noCopies)
          ∧ pcSecond cfg = Settled (inr loan))).
Proof.
  intros Hbook Hnone c1 c2 cfg Hsettled. split.
  - intros Hmore.
    assert (serialized db bookId c1 c2 cfg) as Hcfg
      by (apply serialized_run; [done|done|apply serialized_start]).
    assert (∀ nowA,
              nextId (borrowRecords db)
              ≠ nextId (borrowRecords (borrowed nowA bookId userId book db)))
      as Hids.
    { intros nowA Heq.
      pose proof (nextId_fresh
                    (borrowRecords (borrowed nowA bookId userId book db)))
        as Hfresh.
      rewrite <- Heq in Hfresh. unfold borrowed in Hfresh; simpl in Hfresh.
      by rewrite lookup_insert_eq in Hfresh. }
    destruct (serialized_settled bookId c1 c2 db cfg Hcfg Hsettled)
      as [->| ->]; unfold firstThenSecond, secondThenFirst; simpl.
    + rewrite (borrow_first now1 bookId userId db book Hbook) by (lia || done).
      simpl.
      rewrite (borrow_again now1 now2 bookId userId db book Hbook Hmore Hnone).
      eexists _, _, _. split; [done|]. split; [done|].
      split; [apply (Hids now1)|].
      unfold borrowed; simpl. rewrite lookup_insert_eq.
      split; [done|]. simpl. lia.
    + rewrite (borrow_first now2 bookId userId db book Hbook) by (lia || done).
      simpl.
      rewrite (borrow_again now2 now1 bookId userId db book Hbook Hmore Hnone).
      eexists _, _, _. split; [done|]. split; [done|].
      split; [intros Heq; by apply (Hids now2)|].
      unfold borrowed; simpl. rewrite lookup_insert_eq.
      split; [done|]. simpl. lia.
  - intros Hone.
    by apply (last_copy_race db bookId book now1 userId now2 userId schedule
                Hbook Hone Hnone Hnone).
Qed.

Lemma libraryDb_no_loan_of_8 : ¬ hasActiveRecord 1 8 libraryDb.
Proof. apply findOneBorrowRecord_None. vm_compute. reflexivity. Qed.

Lemma double_submit_witness :
  books libraryDb !! 1 = Some (sampleBook 5 4)
  ∧ ¬ hasActiveRecord 1 8 libraryDb
  ∧ 1 < Book.availableQuantity (sampleBook 5 4)
  ∧ let c1 := BorrowCall.mk 40 1 8 in
    let c2 := BorrowCall.mk 41 1 8 in
    let cfg := runBorrows c1 c2
                 [true; false; true; true; false; true; true;
                  false; false; false; false; false]
                 (initial libraryDb) in
    settled cfg
    ∧ pcFirst cfg = Settled (inr (4, BorrowRecord.mk 40 (Some 40) 8 1))
    ∧ pcSecond cfg = Settled (inr (5, BorrowRecord.mk 41 (Some 41) 8 1))
    ∧ ∃ loan1 loan2 book2,
        pcFirst cfg = Settled (inr loan1)
        ∧ pcSecond cfg = Settled (inr loan2)
        ∧ loan1.1 ≠ loan2.1
        ∧ books (store cfg) !! 1 = Some book2
        ∧ Book.availableQuantity book2
          = Book.availableQuantity (sampleBook 5 4) - 2.
Proof.
  assert (1 < Book.availableQuantity (sampleBook 5 4)) as Hmore
    by (simpl; lia).
  split; [reflexivity|]. split; [exact libraryDb_no_loan_of_8|].
  split; [exact Hmore|].
  intros c1 c2 cfg.
  assert (settled cfg) as Hsettled by (vm_compute; by eexists _, _).
  split; [exact Hsettled|].
  split; [vm_compute; reflexivity|]. split; [vm_compute; reflexivity|].
  exact (proj1 (double_submit libraryDb 40 41 1 8 (sampleBook 5 4) _ eq_refl
                  libraryDb_no_loan_of_8 Hsettled) Hmore).
Defined.

Lemma borrow_keeps_counts now bookId userId db :
  countsInRange db → countsInRange (borrow now bookId userId db).2.
Proof.
  intros Hin.
  destruct (borrow now bookId userId db) as [[e|r] db'] eqn:Hrun; simpl.
  - by apply borrow_failure_keeps in Hrun as ->.
  - apply borrow_inv in Hrun as (book & Hbook & Havail & _ & _ & ->).
    intros id b Hb. unfold borrowed in Hb; simpl in Hb.
    apply lookup_insert_Some in Hb as [[_ <-]|[_ Hb]]; [|by apply (Hin id)].
    destruct (Hin _ _ Hbook). simpl. lia.
Qed.

Lemma borrow_keeps_references now bookId userId db :
  referencesExist db → referencesExist (borrow now bookId userId db).2.
Proof.
  intros Href.
  destruct (borrow now bookId userId db) as [[e|r] db'] eqn:Hrun; simpl.
  - by apply borrow_failure_keeps in Hrun as ->.
  - by eapply borrow_references.
Qed.

(** X23.  Two [borrow] calls for the same Title that take turns, from a
    store in which every Title has 0 <= availableQuantity <= quantity and
    every Loan refers to a Title that exists: once both are settled, both
    hold again; no schedule brings a count below 0. *)
Theorem concurrent_borrows_keep_counts (db : Db) (c1 c2 : BorrowCall.t)
    (schedule : list bool) :
  BorrowCall.bookId c1 = BorrowCall.bookId c2 →
  countsInRange db → referencesExist db →
  let cfg := runBorrows c1 c2 schedule (initial db) in
  settled cfg →
  countsInRange (store cfg) ∧ referencesExist (store cfg).
Proof.
  intros Hid Hin Href cfg Hsettled.
  assert (serialized db (BorrowCall.bookId c1) c1 c2 cfg) as Hcfg
    by (apply serialized_run; [done|by symmetry|apply serialized_start]).
  destruct (serialized_settled _ c1 c2 db cfg Hcfg Hsettled) as [->| ->];
    simpl; split;
    first [ by do 2 apply borrow_keeps_counts
          | by do 2 apply borrow_keeps_references ].
Qed.

Lemma libraryDb_counts : countsInRange libraryDb ∧ referencesExist libraryDb.
Proof.
  split.
  - intros id b Hb. simpl in Hb.
    apply lookup_insert_Some in Hb as [[_ <-]|[_ Hb]];
      [|apply lookup_singleton_Some in Hb as [_ <-]]; simpl; lia.
  - intros k r Hk. simpl in Hk.
    repeat (apply lookup_insert_Some in Hk as [[_ <-]|[_ Hk]];
            [simpl; eauto|]).
    apply lookup_singleton_Some in Hk as [_ <-]. simpl. eauto.
Qed.

Lemma concurrent_borrows_keep_counts_witness :
  countsInRange libraryDb ∧ referencesExist libraryDb
  ∧ let c1 := BorrowCall.mk 40 1 8 in
    let c2 := BorrowCall.mk 41 1 9 in
    let cfg := runBorrows c1 c2
                 [true; false; true; true; false; true; true;
                  false; false; false; false; false]
                 (initial libraryDb) in
    settled cfg
    ∧ countsInRange (store cfg) ∧ referencesExist (store cfg).
Proof.
  destruct libraryDb_counts as [Hin Href].
  split; [exact Hin|]. split; [exact Href|].
  intros c1 c2 cfg.
  assert (settled cfg) as Hsettled by (vm_compute; by eexists _, _).
  split; [exact Hsettled|].
  exact (concurrent_borrows_keep_counts libraryDb c1 c2 _ eq_refl Hin Href
           Hsettled).
Defined.
